(** * DolphinBit: the frame cache and playback-position engine

    A shallow embedding of [src/core/video_handler.py] (class [VideoHandler])
    and of the one place that reconfigures it,
    [MainWindow._load_settings] in [src/ui/main_window.py].

    - The [OrderedDict] holding the cache is an association list, oldest
      entry first, with the dictionary operations the handler uses.
    - The OpenCV capture ([cv2.VideoCapture]) is an external collaborator.
      It is modelled by the contract the handler relies on: a stream of
      frames, some of which may be unreadable, and a read cursor that
      [set] places and a successful [read] advances by one.
    - Methods are computations in a small monad that threads the handler
      object, records the decoder calls a method issues, and propagates
      Python exceptions.

    Around the handler the file embeds its callers in the main window
    (frame stepping and the playback tick), the integer state of the
    timeline widget ([src/widgets/timeline_widget.py]), the list of recent
    files ([src/core/settings_manager.py]) and the choice of an export
    name ([src/core/video_exporter.py]).

    The embedding comes first, then the vocabulary in which the properties
    are stated, then the proofs. *)

From Stdlib Require Import ZArith List Bool Lia Sorted.
From Stdlib Require String.
From Stdlib Require DecimalString DecimalNat.
Import ListNotations.
Local Open Scope Z_scope.

(** * Part 1: the embedding *)

(** ** Frames *)

(** A decoded frame is a pixel buffer.  [frame.copy()] yields a buffer with
    the same content, so on values it is the identity. *)
Definition Frame : Type := list Z.

Definition copy (f : Frame) : Frame := f.

(** ** [collections.OrderedDict], as [frame_cache] uses it *)

Module OrderedDict.

(** Entries in insertion order: the head is the oldest entry, the one
    [popitem(last=False)] removes. *)
Definition t : Type := list (Z * Frame).

Definition empty : t := [].

Definition len (d : t) : Z := Z.of_nat (length d).

Definition keys (d : t) : list Z := map fst d.

(** [d[k]] *)
Fixpoint lookup (k : Z) (d : t) : option Frame :=
  match d with
  | [] => None
  | (k', v) :: d' => if k' =? k then Some v else lookup k d'
  end.

(** [k in d] *)
Definition contains (k : Z) (d : t) : bool :=
  match lookup k d with Some _ => true | None => false end.

(** [d.pop(k)] on a key that is present: the entry is taken out. *)
Fixpoint remove (k : Z) (d : t) : t :=
  match d with
  | [] => []
  | (k', v) :: d' => if k' =? k then d' else (k', v) :: remove k d'
  end.

(** [d[k] = v]: a key that is present keeps its place and gets the new
    value; a new key goes to the end. *)
Fixpoint setitem (k : Z) (v : Frame) (d : t) : t :=
  match d with
  | [] => [(k, v)]
  | (k', v') :: d' =>
      if k' =? k then (k, v) :: d' else (k', v') :: setitem k v d'
  end.

(** [d.popitem(last=False)]: [None] stands for the [KeyError] raised on an
    empty dictionary. *)
Definition popitem_first (d : t) : option ((Z * Frame) * t) :=
  match d with
  | [] => None
  | e :: d' => Some (e, d')
  end.

End OrderedDict.

Definition od : Type := OrderedDict.t.

(** ** The decoder handle ([cv2.VideoCapture])

    OpenCV is outside the repository.  The handler uses four things of a
    capture: [isOpened()], [get] and [set] of [CAP_PROP_POS_FRAMES], and
    [read()].  The model fixes their contract: an opened capture keeps a
    cursor; [set] places it at the index given, whatever the index; [get]
    reports it; [read] delivers the frame under the cursor and moves the
    cursor on by one, or fails and leaves the cursor.  Which indices can
    be read is part of the capture and does not change, so the same index
    always yields the same frame.  A capture that is not opened reads
    nothing, reports position 0 and ignores [set]. *)

Inductive Backend := CAP_FFMPEG | CAP_MSMF | CAP_DSHOW | CAP_ANY.

Record Capture := mkCapture {
  cap_opened : bool;                  (* isOpened() *)
  cap_stream : list (option Frame);   (* what read() yields at each index;
                                         None: the read fails there *)
  cap_frame_count : Z;                (* CAP_PROP_FRAME_COUNT *)
  cap_pos : Z                         (* CAP_PROP_POS_FRAMES *)
}.

(** The frame a read delivers when the cursor stands at [k]. *)
Definition frame_at (c : Capture) (k : Z) : option Frame :=
  if cap_opened c && (0 <=? k)
  then match nth_error (cap_stream c) (Z.to_nat k) with
       | Some (Some f) => Some f
       | _ => None
       end
  else None.

(** [int(cap.get(cv2.CAP_PROP_POS_FRAMES))]; a capture that is not opened
    answers 0. *)
Definition capture_get_pos (c : Capture) : Z :=
  if cap_opened c then cap_pos c else 0.

(** [cap.set(cv2.CAP_PROP_POS_FRAMES, n)]; refused by a capture that is not
    opened. *)
Definition capture_set_pos (n : Z) (c : Capture) : Capture :=
  if cap_opened c
  then mkCapture (cap_opened c) (cap_stream c) (cap_frame_count c) n
  else c.

(** [cap.read()]: on success the frame under the cursor, and the cursor
    moves on by one; on failure [(False, None)] and the cursor stays. *)
Definition capture_read (c : Capture) : option Frame * Capture :=
  match frame_at c (cap_pos c) with
  | Some f =>
      (Some f,
       mkCapture (cap_opened c) (cap_stream c) (cap_frame_count c)
                 (cap_pos c + 1))
  | None => (None, c)
  end.

(** What [cv2.VideoCapture(path, backend)] and [cv2.VideoCapture(path)]
    produce.  [None] stands for a constructor call that raises. *)
Record Opener := mkOpener {
  open_with : String.string -> Backend -> option Capture;
  open_default : String.string -> Capture
}.

(** ** The handler object *)

Record VideoHandler := mkHandler {
  cap : option Capture;
  current_video : option String.string;
  frame_count : Z;
  frame_cache : od;
  cache_size : Z;
  cache_enabled : bool
}.

(** [VideoHandler.__init__(cache_size=150)].  The fields [fps], [duration]
    and [hw_accel_available] are floating-point or probe results that no
    frame operation reads; they are left out. *)
Definition init (cache_size : Z) : VideoHandler :=
  mkHandler None None 0 OrderedDict.empty cache_size true.

Definition set_cap (c : option Capture) (s : VideoHandler) : VideoHandler :=
  mkHandler c (current_video s) (frame_count s) (frame_cache s)
            (cache_size s) (cache_enabled s).

Definition set_frame_cache (d : od) (s : VideoHandler) : VideoHandler :=
  mkHandler (cap s) (current_video s) (frame_count s) d
            (cache_size s) (cache_enabled s).

Definition set_cache_size (n : Z) (s : VideoHandler) : VideoHandler :=
  mkHandler (cap s) (current_video s) (frame_count s) (frame_cache s)
            n (cache_enabled s).

Definition set_cache_enabled (b : bool) (s : VideoHandler) : VideoHandler :=
  mkHandler (cap s) (current_video s) (frame_count s) (frame_cache s)
            (cache_size s) b.

Definition set_session (path : String.string) (n : Z) (s : VideoHandler)
  : VideoHandler :=
  mkHandler (cap s) (Some path) n (frame_cache s)
            (cache_size s) (cache_enabled s).

(** ** Computations on the handler *)

Inductive exn := KeyError | AttributeError.

(** Calls that reach the decoder, and the invocations of the prefetcher with
    their two arguments, in the order they happen. *)
Inductive Event :=
| Open (path : String.string) (backend : option Backend)
| Release
| GetPos
| SetPos (n : Z)
| Read
| Prefetch (start_frame end_frame : Z).

Record Outcome (A : Type) := mkOut {
  out_state : VideoHandler;      (* the handler when the call ends *)
  out_events : list Event;       (* what the call did to the decoder *)
  out_result : A + exn           (* returned value, or exception raised *)
}.

Arguments mkOut {A} _ _ _.
Arguments out_state {A} _.
Arguments out_events {A} _.
Arguments out_result {A} _.

Definition M (A : Type) : Type := VideoHandler -> Outcome A.

Definition ret {A} (a : A) : M A := fun s => mkOut s [] (inl a).

Definition raise {A} (e : exn) : M A := fun s => mkOut s [] (inr e).

Definition bind {A B} (m : M A) (k : A -> M B) : M B :=
  fun s =>
    let o := m s in
    match out_result o with
    | inl a =>
        let o' := k a (out_state o) in
        mkOut (out_state o') (out_events o ++ out_events o') (out_result o')
    | inr e => mkOut (out_state o) (out_events o) (inr e)
    end.

Declare Scope handler_scope.
Delimit Scope handler_scope with handler.
Notation "x <- m ;; k" := (bind m (fun x => k))
  (at level 61, m at next level, right associativity) : handler_scope.
Notation "m ;; k" := (bind m (fun _ => k))
  (at level 61, right associativity) : handler_scope.
Local Open Scope handler_scope.

Definition gets {A} (f : VideoHandler -> A) : M A :=
  fun s => mkOut s [] (inl (f s)).

Definition modify (f : VideoHandler -> VideoHandler) : M unit :=
  fun s => mkOut (f s) [] (inl tt).

Definition emit (e : Event) : M unit :=
  fun s => mkOut s [e] (inl tt).

(** [for x in xs: body(x)] *)
Fixpoint for_each {A} (xs : list A) (body : A -> M unit) : M unit :=
  match xs with
  | [] => ret tt
  | x :: xs' => body x ;; for_each xs' body
  end.

(** [range(a, b)] *)
Definition range (a b : Z) : list Z :=
  map (fun i => a + Z.of_nat i) (seq 0 (Z.to_nat (b - a))).

(** Method calls on [self.cap].  On [None] Python raises
    [AttributeError]; every caller below tests [self.cap] first. *)
Definition cap_get_pos : M Z :=
  fun s =>
    match cap s with
    | None => mkOut s [] (inr AttributeError)
    | Some c => mkOut s [GetPos] (inl (capture_get_pos c))
    end.

Definition cap_set_pos (n : Z) : M unit :=
  fun s =>
    match cap s with
    | None => mkOut s [] (inr AttributeError)
    | Some c => mkOut (set_cap (Some (capture_set_pos n c)) s) [SetPos n] (inl tt)
    end.

Definition cap_read : M (option Frame) :=
  fun s =>
    match cap s with
    | None => mkOut s [] (inr AttributeError)
    | Some c =>
        let (r, c') := capture_read c in
        mkOut (set_cap (Some c') s) [Read] (inl r)
    end.

(** Whether [self.cap] is truthy. *)
Definition has_cap (s : VideoHandler) : bool :=
  match cap s with Some _ => true | None => false end.

(** ** The methods of [VideoHandler] *)

(** [_add_to_cache(frame_num, frame)] *)
Definition _add_to_cache (frame_num : Z) (frame : Frame) : M unit :=
  enabled <- gets cache_enabled ;;
  if negb enabled then ret tt else
  d <- gets frame_cache ;;
  size <- gets cache_size ;;
  (if OrderedDict.len d >=? size
   then match OrderedDict.popitem_first d with
        | None => raise KeyError
        | Some (_, d') => modify (set_frame_cache d')
        end
   else ret tt) ;;
  modify (fun s => set_frame_cache (OrderedDict.setitem frame_num frame (frame_cache s)) s).

(** [_get_from_cache(frame_num)] *)
Definition _get_from_cache (frame_num : Z) : M (option Frame) :=
  enabled <- gets cache_enabled ;;
  if negb enabled then ret None else
  d <- gets frame_cache ;;
  match OrderedDict.lookup frame_num d with
  | Some frame =>
      modify (set_frame_cache (OrderedDict.remove frame_num d)) ;;
      modify (fun s => set_frame_cache (OrderedDict.setitem frame_num frame (frame_cache s)) s) ;;
      ret (Some frame)
  | None => ret None
  end.

(** The body of the loop of [_prefetch_frames]: an index already cached is
    passed over, an index whose read fails is skipped. *)
Definition prefetch_frame (frame_num : Z) : M unit :=
  d <- gets frame_cache ;;
  if OrderedDict.contains frame_num d then ret tt else
  cap_set_pos frame_num ;;
  r <- cap_read ;;
  match r with
  | Some frame => _add_to_cache frame_num (copy frame)
  | None => ret tt
  end.

(** [_prefetch_frames(start_frame, end_frame)] *)
Definition _prefetch_frames (start_frame end_frame : Z) : M unit :=
  emit (Prefetch start_frame end_frame) ;;
  enabled <- gets cache_enabled ;;
  loaded <- gets has_cap ;;
  if negb enabled || negb loaded then ret tt else
  current_pos <- cap_get_pos ;;
  fc <- gets frame_count ;;
  for_each (range start_frame (Z.min end_frame fc)) prefetch_frame ;;
  cap_set_pos current_pos.

(** [get_current_frame()] *)
Definition get_current_frame : M (option Frame) :=
  loaded <- gets has_cap ;;
  if negb loaded then ret None else
  current_frame_num <- cap_get_pos ;;
  cached_frame <- _get_from_cache current_frame_num ;;
  match cached_frame with
  | Some cached =>
      cap_read ;;
      ret (Some (copy cached))
  | None =>
      r <- cap_read ;;
      match r with
      | Some frame =>
          _add_to_cache current_frame_num (copy frame) ;;
          fc <- gets frame_count ;;
          let next_start := current_frame_num + 1 in
          let next_end := Z.min (current_frame_num + 10) fc in
          (if next_end >? next_start
           then _prefetch_frames next_start next_end
           else ret tt) ;;
          ret (Some frame)
      | None => ret None
      end
  end.

(** [get_frame_at_position(frame_number)] *)
Definition get_frame_at_position (frame_number : Z) : M (option Frame) :=
  loaded <- gets has_cap ;;
  if negb loaded then ret None else
  cached_frame <- _get_from_cache frame_number ;;
  match cached_frame with
  | Some cached =>
      cap_set_pos (frame_number + 1) ;;
      ret (Some (copy cached))
  | None =>
      cap_set_pos frame_number ;;
      frame <- get_current_frame ;;
      fc <- gets frame_count ;;
      let prefetch_start := Z.max 0 (frame_number - 5) in
      let prefetch_end := Z.min (frame_number + 15) fc in
      _prefetch_frames prefetch_start prefetch_end ;;
      ret frame
  end.

(** [get_current_position()] reads the handler and changes nothing. *)
Definition get_current_position (s : VideoHandler) : Z :=
  match cap s with
  | Some c => capture_get_pos c
  | None => 0
  end.

(** [seek(frame_number)] *)
Definition seek (frame_number : Z) : M unit :=
  loaded <- gets has_cap ;;
  if negb loaded then ret tt else
  cap_set_pos frame_number ;;
  fc <- gets frame_count ;;
  let prefetch_start := Z.max 0 (frame_number - 5) in
  let prefetch_end := Z.min (frame_number + 20) fc in
  _prefetch_frames prefetch_start prefetch_end.

(** [clear_cache()] *)
Definition clear_cache : M unit :=
  modify (set_frame_cache OrderedDict.empty).

(** [release()] *)
Definition release : M unit :=
  loaded <- gets has_cap ;;
  (if loaded then emit Release ;; modify (set_cap None) else ret tt) ;;
  modify (set_frame_cache OrderedDict.empty).

(** The backend loop of [load_video]: the first backend whose capture is
    opened wins; a capture that is not opened is released, a constructor
    that raises is skipped. *)
Fixpoint try_backends (w : Opener) (video_path : String.string)
  (backends : list Backend) : M unit :=
  match backends with
  | [] => ret tt
  | backend :: rest =>
      match open_with w video_path backend with
      | Some test_cap =>
          emit (Open video_path (Some backend)) ;;
          if cap_opened test_cap
          then modify (set_cap (Some test_cap))
          else emit Release ;; try_backends w video_path rest
      | None => try_backends w video_path rest
      end
  end.

(** [load_video(video_path)].  The result is [None] when nothing opens the
    file and otherwise the frame count of the property dictionary (its
    other entries are the floating-point [fps] and [duration] and the
    picture size).  The request for hardware acceleration after opening is
    wrapped in [try/except: pass] and does not touch the cursor. *)
Definition load_video (w : Opener) (video_path : String.string) : M (option Z) :=
  loaded <- gets has_cap ;;
  (if loaded then emit Release else ret tt) ;;
  modify (set_frame_cache OrderedDict.empty) ;;
  modify (set_cap None) ;;
  try_backends w video_path [CAP_FFMPEG; CAP_MSMF; CAP_DSHOW; CAP_ANY] ;;
  loaded' <- gets has_cap ;;
  (if negb loaded'
   then emit (Open video_path None) ;;
        modify (set_cap (Some (open_default w video_path)))
   else ret tt) ;;
  c <- gets cap ;;
  match c with
  | None => raise AttributeError
  | Some c =>
      if negb (cap_opened c) then ret None else
      modify (set_session video_path (cap_frame_count c)) ;;
      fc <- gets frame_count ;;
      _prefetch_frames 0 (Z.min 30 fc) ;;
      ret (Some fc)
  end.

(** The cache part of [MainWindow._load_settings]: two attribute
    assignments on the handler. *)
Definition apply_cache_settings (size : Z) (enabled : bool) : M unit :=
  modify (set_cache_size size) ;;
  modify (set_cache_enabled enabled).

(** * Part 2: the vocabulary of the properties *)

(** ** Sequences of cache operations *)

Inductive CacheOp :=
| CacheGet (k : Z)
| CachePut (k : Z) (f : Frame)
| CacheClear.

Definition cache_op (op : CacheOp) : M unit :=
  match op with
  | CacheGet k => _get_from_cache k ;; ret tt
  | CachePut k f => _add_to_cache k f
  | CacheClear => clear_cache
  end.

(** The outcome of every operation of a sequence, in order; each operation
    starts from the handler the previous one left. *)
Fixpoint cache_run (ops : list CacheOp) (s : VideoHandler)
  : list (Outcome unit) :=
  match ops with
  | [] => []
  | op :: ops' =>
      let o := cache_op op s in
      o :: cache_run ops' (out_state o)
  end.

Definition cache_len (s : VideoHandler) : Z := OrderedDict.len (frame_cache s).

(** ** What the frame operations keep *)

(** Two captures on the same medium: they differ in the cursor at most. *)
Definition same_media (c c' : Capture) : Prop :=
  cap_opened c' = cap_opened c /\
  cap_stream c' = cap_stream c /\
  cap_frame_count c' = cap_frame_count c.

(** [steady s s']: from [s] to [s'] the session and the cache configuration
    are the same and the decoder handle is the same handle, possibly with
    its cursor elsewhere.  Only the cursor and the cache may differ. *)
Definition steady (s s' : VideoHandler) : Prop :=
  current_video s' = current_video s /\
  frame_count s' = frame_count s /\
  cache_size s' = cache_size s /\
  cache_enabled s' = cache_enabled s /\
  match cap s, cap s' with
  | None, None => True
  | Some c, Some c' => same_media c c'
  | _, _ => False
  end.

(** Every cached frame is the frame the open decoder delivers at that
    index. *)
Definition cache_consistent (s : VideoHandler) : Prop :=
  forall k f, In (k, f) (frame_cache s) ->
              exists c, cap s = Some c /\ frame_at c k = Some f.

(** The windows the prefetcher was invoked with, in order. *)
Fixpoint prefetch_windows (evs : list Event) : list (Z * Z) :=
  match evs with
  | [] => []
  | Prefetch a b :: evs' => (a, b) :: prefetch_windows evs'
  | _ :: evs' => prefetch_windows evs'
  end.

(** ** The normal outcome of a computation *)

(** [post m s Q]: run from [s], the computation [m] returns normally, and
    its result, final handler and events satisfy [Q]. *)
Definition post {A} (m : M A) (s : VideoHandler)
  (Q : A -> VideoHandler -> list Event -> Prop) : Prop :=
  exists a, out_result (m s) = inl a /\ Q a (out_state (m s)) (out_events (m s)).

(** The postcondition every frame operation establishes: the handler is
    the same but for cursor and cache, and a cache that was consistent with
    the decoder still is. *)
Definition kept (s s' : VideoHandler) : Prop :=
  steady s s' /\ (cache_consistent s -> cache_consistent s').

(** What a cache lookup answers in handler [s]. *)
Definition cached (k : Z) (s : VideoHandler) : option Frame :=
  if cache_enabled s then OrderedDict.lookup k (frame_cache s) else None.

(** The window [get_current_frame] passes to the prefetcher after it has
    decoded frame [n]; the prefetcher is not called on an empty window. *)
Definition sequential_window (n fc : Z) : list (Z * Z) :=
  if Z.min (n + 10) fc >? n + 1 then [(n + 1, Z.min (n + 10) fc)] else [].

(** ** Fixtures for the examples *)

Module Fixtures.
Import String.

(** A clip of [n] readable frames; frame [i] is the buffer [[i]]. *)
Definition clip (n : nat) : Capture :=
  mkCapture true (map (fun i => Some [Z.of_nat i]) (seq 0 n)) (Z.of_nat n) 0.

(** A clip of six frames whose frames 1 and 4 cannot be decoded. *)
Definition damaged : Capture :=
  mkCapture true [Some [0]; None; Some [2]; Some [3]; None; Some [5]] 6 0.

(** Every backend opens the same capture. *)
Definition opener (c : Capture) : Opener :=
  mkOpener (fun _ _ => Some c) (fun _ => c).

Definition clip_path : string := "clip.mp4".

(** A handler with capacity [size] on which [c] has been loaded. *)
Definition loaded (size : Z) (c : Capture) : VideoHandler :=
  out_state (load_video (opener c) clip_path (init size)).

(** Video A, loaded: eight frames, all cached, frame 5 among them. *)
Definition holding_a : VideoHandler := loaded 10 (clip 8).

(** Video B: six frames, frame [i] is the buffer [[100 + i]]. *)
Definition video_b : Capture :=
  mkCapture true [Some [100]; Some [101]; Some [102]; Some [103];
                  Some [104]; Some [105]] 6 0.

Definition path_b : string := "b.mp4".

(** Video B loaded on the handler that held video A. *)
Definition after_b : VideoHandler :=
  out_state (load_video (opener video_b) path_b holding_a).

End Fixtures.

(** [c0] is a capture the opener hands out for [path]. *)
Definition opened_by (w : Opener) (path : String.string) (c0 : Capture) : Prop :=
  (exists backend, open_with w path backend = Some c0) \/
  c0 = open_default w path.

(** ** Sequences of frame requests *)

Inductive Call :=
| CallCurrent              (* get_current_frame() *)
| CallAt (n : Z)           (* get_frame_at_position(n) *)
| CallSeek (n : Z).        (* seek(n) *)

Definition call (c : Call) : M (option Frame) :=
  match c with
  | CallCurrent => get_current_frame
  | CallAt n => get_frame_at_position n
  | CallSeek n => seek n ;; ret None
  end.

(** One call of a sequence: the call, the handler it started from and its
    outcome. *)
Record Step := mkStep {
  step_call : Call;
  step_from : VideoHandler;
  step_out : Outcome (option Frame)
}.

Fixpoint run_calls (cs : list Call) (s : VideoHandler) : list Step :=
  match cs with
  | [] => []
  | c :: cs' =>
      let o := call c s in
      mkStep c s o :: run_calls cs' (out_state o)
  end.

Definition position_after (st : Step) : Z :=
  get_current_position (out_state (step_out st)).

(** The index of the frame a step served, if it served one. *)
Definition served_index (st : Step) : option Z :=
  match out_result (step_out st), step_call st with
  | inl (Some _), CallCurrent => Some (get_current_position (step_from st))
  | inl (Some _), CallAt n => Some n
  | _, _ => None
  end.

(** The cursor the specification's sentence expects after a step: the
    target of a bare seek, else one past the last frame served, which is
    the frame of this step or, if it served none, the one expected so
    far. *)
Definition expected_cursor (so_far : Z) (st : Step) : Z :=
  match step_call st with
  | CallSeek n => n
  | _ => match served_index st with
         | Some i => i + 1
         | None => so_far
         end
  end.

Fixpoint cursor_as_specified (so_far : Z) (steps : list Step) : Prop :=
  match steps with
  | [] => True
  | st :: rest =>
      position_after st = expected_cursor so_far st /\
      cursor_as_specified (expected_cursor so_far st) rest
  end.

(** What the code guarantees for one step: it does not raise; after a
    frame was served the cursor is one past its index; after a seek it is
    the target; a [get_current_frame] that serves nothing leaves the
    cursor, a [get_frame_at_position n] that serves nothing leaves it at
    [n]. *)
Definition cursor_follows (st : Step) : Prop :=
  match step_call st, out_result (step_out st) with
  | CallSeek n, inl _ => position_after st = n
  | CallCurrent, inl (Some _) =>
      position_after st = get_current_position (step_from st) + 1
  | CallCurrent, inl None =>
      position_after st = get_current_position (step_from st)
  | CallAt n, inl (Some _) => position_after st = n + 1
  | CallAt n, inl None => position_after st = n
  | _, inr _ => False
  end.

(** A handler with an open decoder, a consistent cache and room for at
    least one frame. *)
Definition ready (s : VideoHandler) : Prop :=
  (exists c, cap s = Some c /\ cap_opened c = true) /\
  cache_consistent s /\
  1 <= cache_size s.

(** ** Recency of cache entries *)

(** The indices touched so far, most recent first.  A lookup touches its
    index when it hits, an insert touches its index. *)
Definition touch (op : CacheOp) (s : VideoHandler) (h : list Z) : list Z :=
  match op with
  | CacheGet k => match cached k s with Some _ => k :: h | None => h end
  | CachePut k _ => if cache_enabled s then k :: h else h
  | CacheClear => h
  end.

(** The handler and the touch history after a sequence of operations. *)
Fixpoint cache_play (ops : list CacheOp) (s : VideoHandler) (h : list Z)
  : VideoHandler * list Z :=
  match ops with
  | [] => (s, h)
  | op :: ops' => cache_play ops' (out_state (cache_op op s)) (touch op s h)
  end.

(** How many touches ago index [k] was last touched. *)
Fixpoint age (k : Z) (h : list Z) : nat :=
  match h with
  | [] => 0
  | x :: h' => if x =? k then 0%nat else S (age k h')
  end.

(** Every insert of the sequence is of an index that is not in the cache
    at that moment. *)
Fixpoint puts_are_new (ops : list CacheOp) (s : VideoHandler) : Prop :=
  match ops with
  | [] => True
  | op :: ops' =>
      match op with
      | CachePut k _ => OrderedDict.contains k (frame_cache s) = false
      | _ => True
      end /\
      puts_are_new ops' (out_state (cache_op op s))
  end.

(** Inserting [(k, f)] into the cache of [s] drops one entry, and that
    entry was touched longer ago than every entry that stays. *)
Definition evicts_least_recently_touched
  (s : VideoHandler) (h : list Z) (k : Z) (f : Frame) : Prop :=
  exists v fv rest,
    frame_cache s = (v, fv) :: rest /\
    _add_to_cache k f s =
    mkOut (set_frame_cache (rest ++ [(k, f)]) s) [] (inl tt) /\
    In v h /\
    forall x, In x (OrderedDict.keys rest) -> In x h /\ (age x h < age v h)%nat.

(** The cache lists its entries from the one touched longest ago to the
    one touched last. *)
Definition recency_ordered (d : od) (h : list Z) : Prop :=
  StronglySorted (fun a b => (age b h < age a h)%nat) (OrderedDict.keys d) /\
  forall x, In x (OrderedDict.keys d) -> In x h.

(** ** Requests on a loaded handler, beyond the three frame calls *)

(** [get_cache_info()], without its [hw_accel] entry: the result of the
    hardware probe is not part of the model. *)
Record CacheInfo := mkCacheInfo {
  info_size : Z;
  info_max_size : Z;
  info_enabled : bool
}.

Definition get_cache_info (s : VideoHandler) : CacheInfo :=
  mkCacheInfo (OrderedDict.len (frame_cache s)) (cache_size s) (cache_enabled s).

(** What the window asks of the handler between two loads. *)
Inductive Request :=
| ReqFrame (c : Call)
| ReqClearCache                              (* clear_cache() *)
| ReqSettings (size : Z) (enabled : bool).   (* the two assignments of
                                                _load_settings *)

Definition request (r : Request) : M (option Frame) :=
  match r with
  | ReqFrame c => call c
  | ReqClearCache => clear_cache ;; ret None
  | ReqSettings size enabled => apply_cache_settings size enabled ;; ret None
  end.

Record Served := mkServed {
  sv_request : Request;
  sv_from : VideoHandler;
  sv_out : Outcome (option Frame)
}.

Fixpoint run_requests (rs : list Request) (s : VideoHandler) : list Served :=
  match rs with
  | [] => []
  | r :: rs' =>
      let o := request r s in
      mkServed r s o :: run_requests rs' (out_state o)
  end.

(** A settings request keeps the capacity at 1 or more. *)
Definition settings_valid (r : Request) : Prop :=
  match r with
  | ReqSettings size _ => 1 <= size
  | _ => True
  end.

(** A request that is not a settings request. *)
Definition settings_fixed (r : Request) : Prop :=
  match r with
  | ReqSettings _ _ => False
  | _ => True
  end.

(** The request returned what capture [c0] holds at the index asked for;
    a request that asks for no frame returned [None]. *)
Definition decoder_frame (c0 : Capture) (sv : Served) : Prop :=
  match sv_request sv with
  | ReqFrame CallCurrent =>
      out_result (sv_out sv) =
      inl (frame_at c0 (get_current_position (sv_from sv)))
  | ReqFrame (CallAt n) => out_result (sv_out sv) = inl (frame_at c0 n)
  | _ => out_result (sv_out sv) = inl None
  end.

(** The handler holds capture [c0], with the cursor anywhere. *)
Definition holds (c0 : Capture) (s : VideoHandler) : Prop :=
  exists c, cap s = Some c /\ same_media c0 c.

(** The two invariants of the Cache Entry: one entry per index, and no
    more entries than the capacity. *)
Definition one_entry_per_index (s : VideoHandler) : Prop :=
  NoDup (OrderedDict.keys (frame_cache s)).

Definition within_capacity (s : VideoHandler) : Prop :=
  cache_len s <= cache_size s.

(** Both are kept from [s] to [s']. *)
Definition orderly (s s' : VideoHandler) : Prop :=
  (one_entry_per_index s -> one_entry_per_index s') /\
  (within_capacity s -> within_capacity s').

(** What [get_cache_info] reports is within the bound it reports. *)
Definition reports_within_capacity (s : VideoHandler) : Prop :=
  info_size (get_cache_info s) <= info_max_size (get_cache_info s).

(** ** A computation that raises *)

(** [fails m s e P]: run from [s], the computation [m] raises [e], and
    the handler it leaves behind satisfies [P]. *)
Definition fails {A} (m : M A) (s : VideoHandler) (e : exn)
  (P : VideoHandler -> Prop) : Prop :=
  out_result (m s) = inr e /\ P (out_state (m s)).

(** ** A cache at or above its bound *)

(** The cache of [s] is not empty and holds at least as many entries as
    the capacity allows, each index once. *)
Definition at_or_over_capacity (s : VideoHandler) : Prop :=
  one_entry_per_index s /\ 0 < cache_len s /\ cache_size s <= cache_len s.

Definition not_clear (op : CacheOp) : Prop :=
  match op with CacheClear => False | _ => True end.

(** ** [MainWindow]: stepping through the video ([src/ui/main_window.py])

    The window's navigation methods call the handler and then Qt widgets
    (the player's pixmap, the timeline, the status bar).  The widget calls
    are left out; each method returns what it hands to them: the frame it
    fetched for the player and the position it gives to the timeline. *)

(** [show_current_frame()]: the frame fetched for the player; on [None]
    the player keeps what it shows. *)
Definition show_current_frame : M (option Frame) := get_current_frame.

(** [seek_video(position)] *)
Definition seek_video (position : Z) : M (option Frame) :=
  seek position ;; show_current_frame.

(** [next_frame()]: [None] when no video is loaded, else the position
    passed to [seek_video] and to [timeline.set_position], and the frame
    fetched. *)
Definition next_frame : M (option (Z * option Frame)) :=
  loaded <- gets has_cap ;;
  if negb loaded then ret None else
  current <- gets get_current_position ;;
  fc <- gets frame_count ;;
  let new_pos := Z.min (current + 1) (fc - 1) in
  shown <- seek_video new_pos ;;
  ret (Some (new_pos, shown)).

(** [previous_frame()] *)
Definition previous_frame : M (option (Z * option Frame)) :=
  loaded <- gets has_cap ;;
  if negb loaded then ret None else
  current <- gets get_current_position ;;
  let new_pos := Z.max (current - 1) 0 in
  shown <- seek_video new_pos ;;
  ret (Some (new_pos, shown)).

(** [playback_tick()], given the timeline's in and out points and the
    [is_playing] flag, up to the frame it fetches: [None] when the tick
    returns at its guard, else the position passed to
    [timeline.set_position] and the frame fetched.  What the method does
    after the fetch (the time label and the overlay, computed from the
    floating-point [fps]) is not part of the model. *)
Definition playback_tick (in_point out_point : Z) (is_playing : bool)
  : M (option (Z * option Frame)) :=
  loaded <- gets has_cap ;;
  if negb loaded || negb is_playing then ret None else
  current_frame <- gets get_current_position ;;
  current_frame <-
    (if current_frame >=? out_point
     then seek in_point ;; ret in_point
     else ret current_frame) ;;
  shown <- show_current_frame ;;
  ret (Some (current_frame, shown)).

Arguments seek_video : simpl never.

(** ** [TimelineWidget]: position and marked region
    ([src/widgets/timeline_widget.py])

    The integer fields of the widget and the three setters the main window
    calls.  The zoom level and the visible range are floating point and
    only steer the painting; they are left out, and so is the repaint
    ([self.update()]). *)

Module Timeline.

Record t := mk {
  duration : Z;
  current_position : Z;
  in_point : Z;
  out_point : Z
}.

(** [TimelineWidget.__init__] *)
Definition init : t := mk 100 0 0 100.

(** [set_duration(duration)] *)
Definition set_duration (d : Z) (w : t) : t :=
  mk (Z.max 1 d) (current_position w) (in_point w) (out_point w).

(** [set_position(position)] *)
Definition set_position (position : Z) (w : t) : t :=
  mk (duration w) (Z.max 0 (Z.min position (duration w)))
     (in_point w) (out_point w).

(** [set_in_out_points(in_point, out_point)]: the out point is clamped
    against the in point just assigned. *)
Definition set_in_out_points (i o : Z) (w : t) : t :=
  let i' := Z.max 0 (Z.min i (duration w)) in
  mk (duration w) (current_position w) i' (Z.max i' (Z.min o (duration w))).

(** [_screen_to_frame(screen_x, track_rect)]: the frame under the mouse.
    [raw] stands for [int(frame)], the integer the floating-point
    conversion of the mouse position arrives at; the method clamps it. *)
Definition _screen_to_frame (raw : Z) (w : t) : Z :=
  Z.max 0 (Z.min raw (duration w)).

(** [update_position_from_mouse(event)] *)
Definition update_position_from_mouse (raw : Z) (w : t) : t :=
  let new_pos := _screen_to_frame raw w in
  if negb (new_pos =? current_position w)
  then mk (duration w) new_pos (in_point w) (out_point w)
  else w.

(** [update_in_point_from_mouse(event)] *)
Definition update_in_point_from_mouse (raw : Z) (w : t) : t :=
  let new_in := _screen_to_frame raw w in
  let new_in := Z.max 0 (Z.min new_in (out_point w)) in
  if negb (new_in =? in_point w)
  then mk (duration w) (current_position w) new_in (out_point w)
  else w.

(** [update_out_point_from_mouse(event)] *)
Definition update_out_point_from_mouse (raw : Z) (w : t) : t :=
  let new_out := _screen_to_frame raw w in
  let new_out := Z.max (in_point w) (Z.min new_out (duration w)) in
  if negb (new_out =? out_point w)
  then mk (duration w) (current_position w) (in_point w) new_out
  else w.

(** What the main window and the mouse do to the timeline. *)
Inductive Op :=
| Loaded (frame_count : Z)      (* MainWindow.load_video:
                                   set_duration(frame_count), then
                                   set_in_out_points(0, frame_count) *)
| SetPosition (position : Z)    (* stop_video, playback_tick, the stepping
                                   methods *)
| SetInOut (i o : Z)            (* set_in_point, set_out_point,
                                   clear_in_out_points *)
| DragPosition (raw : Z)        (* mouse press or move on the track *)
| DragIn (raw : Z)              (* mouse move, in marker held *)
| DragOut (raw : Z).            (* mouse move, out marker held *)

Definition apply (op : Op) (w : t) : t :=
  match op with
  | Loaded frame_count =>
      set_in_out_points 0 frame_count (set_duration frame_count w)
  | SetPosition position => set_position position w
  | SetInOut i o => set_in_out_points i o w
  | DragPosition raw => update_position_from_mouse raw w
  | DragIn raw => update_in_point_from_mouse raw w
  | DragOut raw => update_out_point_from_mouse raw w
  end.

(** The timeline after each operation of a sequence. *)
Fixpoint run (ops : list Op) (w : t) : list t :=
  match ops with
  | [] => []
  | op :: ops' => apply op w :: run ops' (apply op w)
  end.

(** The marked region lies inside the clip and is not inverted. *)
Definition region_ok (w : t) : Prop :=
  1 <= duration w /\ 0 <= in_point w <= out_point w /\ out_point w <= duration w.

End Timeline.

(** ** [SettingsManager]: the list of recent files
    ([src/core/settings_manager.py])

    Of the [QSettings] store the two keys [add_recent_file] reads and
    writes; the store hands back each value as it was stored. *)

Module SettingsManager.

Record t := mk {
  recent_files : list String.string;
  max_recent_files : Z
}.

(** [l.remove(x)] on a list that contains [x]: the first occurrence
    goes. *)
Fixpoint list_remove (x : String.string) (l : list String.string)
  : list String.string :=
  match l with
  | [] => []
  | y :: l' => if String.eqb y x then l' else y :: list_remove x l'
  end.

(** [x in l] *)
Definition list_contains (x : String.string) (l : list String.string) : bool :=
  existsb (fun y => String.eqb y x) l.

(** [l[:n]]: the first [n] elements, and for a negative [n] all but the
    last [-n]. *)
Definition slice_to {A} (n : Z) (l : list A) : list A :=
  if 0 <=? n
  then firstn (Z.to_nat n) l
  else firstn (length l - Z.to_nat (- n)) l.

(** [add_recent_file(file_path)] *)
Definition add_recent_file (file_path : String.string) (st : t) : t :=
  let recent := recent_files st in
  let recent :=
    if list_contains file_path recent
    then list_remove file_path recent
    else recent in
  let recent := file_path :: recent in
  let max_recent := max_recent_files st in
  let recent := slice_to max_recent recent in
  mk recent (max_recent_files st).

(** [clear_recent_files()] *)
Definition clear_recent_files (st : t) : t := mk [] (max_recent_files st).

(** The files of [files] added one after the other, first to last. *)
Definition add_all (files : list String.string) (st : t) : t :=
  fold_left (fun st file_path => add_recent_file file_path st) files st.

(** The list has no duplicates and respects the limit. *)
Definition tidy (st : t) : Prop :=
  NoDup (recent_files st) /\
  Z.of_nat (length (recent_files st)) <= max_recent_files st.

End SettingsManager.

(** ** [VideoExporter.get_unique_filename]
    ([src/core/video_exporter.py])

    The file system and [os.path.splitext] are the operating system's; the
    method is modelled over what they answer.  Its [while] loop has no
    bound of its own, so the model runs it on fuel: [None] means the fuel
    ran out with every name tried so far taken. *)

Module VideoExporter.
Import String.
Local Open Scope string_scope.

Record Os := mkOs {
  path_exists : String.string -> bool;                       (* os.path.exists *)
  splitext : String.string -> String.string * String.string  (* os.path.splitext *)
}.

(** [str(counter)] for a counter that is not negative. *)
Definition str (counter : nat) : String.string :=
  DecimalString.NilEmpty.string_of_uint (Nat.to_uint counter).

(** [f"{base}_{counter}{ext}"] *)
Definition numbered (os : Os) (file_path : String.string) (counter : nat)
  : String.string :=
  let (base, ext) := splitext os file_path in
  String.append base
    (String.append "_"
       (String.append (str counter) ext)).

(** The loop: [unique_file] is the name under test, [counter] the number
    the next name gets. *)
Fixpoint unique_loop (fuel : nat) (os : Os) (file_path : String.string)
  (counter : nat) (unique_file : String.string) : option String.string :=
  if path_exists os unique_file
  then match fuel with
       | O => None
       | S fuel' =>
           unique_loop fuel' os file_path (S counter)
                       (numbered os file_path counter)
       end
  else Some unique_file.

(** [get_unique_filename(file_path)] *)
Definition get_unique_filename (fuel : nat) (os : Os)
  (file_path : String.string) : option String.string :=
  unique_loop fuel os file_path 1 file_path.

(** A directory that holds [out.mp4] and [out_1.mp4]. *)
Definition out_path : string := "out.mp4".

Definition two_taken : Os :=
  mkOs (fun p => (p =? "out.mp4") || (p =? "out_1.mp4"))
       (fun p => if p =? "out.mp4" then ("out", ".mp4") else (p, "")).

End VideoExporter.

Arguments _add_to_cache : simpl never.
Arguments _get_from_cache : simpl never.
Arguments prefetch_frame : simpl never.
Arguments _prefetch_frames : simpl never.
Arguments get_current_frame : simpl never.
Arguments get_frame_at_position : simpl never.
Arguments seek : simpl never.

(** * Part 3: proofs *)

(** ** The ordered dictionary *)

Module OrderedDictFacts.
Import OrderedDict.

Lemma length_setitem_le k v (d : t) :
  (length (setitem k v d) <= S (length d))%nat.
Proof.
  induction d as [|[k' v'] d IH]; simpl; [lia|].
  destruct (k' =? k); simpl; lia.
Qed.

Lemma length_remove_hit k v (d : t) :
  lookup k d = Some v -> S (length (remove k d)) = length d.
Proof.
  induction d as [|[k' v'] d IH]; simpl; [discriminate|].
  destruct (k' =? k); simpl; auto.
Qed.

Lemma lookup_In k v (d : t) : lookup k d = Some v -> In (k, v) d.
Proof.
  induction d as [|[k' v'] d IH]; simpl; [discriminate|].
  destruct (Z.eqb_spec k' k); intros H.
  - inversion H; subst; auto.
  - auto.
Qed.

Lemma lookup_None_keys k (d : t) : lookup k d = None <-> ~ In k (keys d).
Proof.
  induction d as [|[k' v'] d IH]; simpl; [tauto|].
  destruct (Z.eqb_spec k' k); split; intros H.
  - discriminate.
  - exfalso; apply H; auto.
  - intros [E|I]; [contradiction | tauto].
  - apply IH; tauto.
Qed.

Lemma In_remove e k (d : t) : In e (remove k d) -> In e d.
Proof.
  induction d as [|[k' v'] d IH]; simpl; [tauto|].
  destruct (k' =? k); simpl; tauto.
Qed.

Lemma In_setitem e k v (d : t) :
  In e (setitem k v d) -> e = (k, v) \/ In e d.
Proof.
  induction d as [|[k' v'] d IH]; simpl.
  - intros [E|[]]; auto.
  - destruct (k' =? k); simpl; intros [E|I]; auto.
    destruct (IH I); auto.
Qed.

(** A key that is not in the dictionary is appended. *)
Lemma setitem_fresh k v (d : t) :
  lookup k d = None -> setitem k v d = d ++ [(k, v)].
Proof.
  induction d as [|[k' v'] d IH]; simpl; [reflexivity|].
  destruct (k' =? k); [discriminate|].
  intros H; rewrite IH; auto.
Qed.

Lemma lookup_remove_same k (d : t) :
  NoDup (keys d) -> lookup k (remove k d) = None.
Proof.
  induction d as [|[k' v'] d IH]; simpl; [reflexivity|].
  intros ND; inversion ND as [|? ? NI ND']; subst.
  destruct (Z.eqb_spec k' k).
  - subst; apply lookup_None_keys; assumption.
  - simpl. destruct (Z.eqb_spec k' k); [contradiction | auto].
Qed.

Lemma keys_remove_incl k x (d : t) : In x (keys (remove k d)) -> In x (keys d).
Proof.
  unfold keys; rewrite !in_map_iff.
  intros [e [E I]]; exists e; split; [assumption | eapply In_remove; eassumption].
Qed.

End OrderedDictFacts.

(** ** The two cache methods, case by case *)

Lemma add_to_cache_disabled k f s :
  cache_enabled s = false -> _add_to_cache k f s = mkOut s [] (inl tt).
Proof. intros E; unfold _add_to_cache, bind, gets; simpl; rewrite E; reflexivity. Qed.

Lemma add_to_cache_room k f s :
  cache_enabled s = true ->
  OrderedDict.len (frame_cache s) < cache_size s ->
  _add_to_cache k f s =
  mkOut (set_frame_cache (OrderedDict.setitem k f (frame_cache s)) s) [] (inl tt).
Proof.
  intros E L; unfold _add_to_cache, bind, gets; simpl; rewrite E; simpl.
  destruct (Z.geb_spec (OrderedDict.len (frame_cache s)) (cache_size s)); [lia|].
  reflexivity.
Qed.

Lemma add_to_cache_full k f s e d :
  cache_enabled s = true ->
  cache_size s <= OrderedDict.len (frame_cache s) ->
  frame_cache s = e :: d ->
  _add_to_cache k f s =
  mkOut (set_frame_cache (OrderedDict.setitem k f d) s) [] (inl tt).
Proof.
  intros E L D; unfold _add_to_cache, bind, gets; simpl; rewrite E; simpl.
  destruct (Z.geb_spec (OrderedDict.len (frame_cache s)) (cache_size s)); [|lia].
  rewrite D; destruct e; reflexivity.
Qed.

Lemma add_to_cache_empty_full k f s :
  cache_enabled s = true ->
  cache_size s <= 0 ->
  frame_cache s = [] ->
  _add_to_cache k f s = mkOut s [] (inr KeyError).
Proof.
  intros E L D; unfold _add_to_cache, bind, gets; simpl; rewrite E; simpl.
  rewrite D.
  destruct (Z.geb_spec (OrderedDict.len []) (cache_size s)) as [G|G];
    [reflexivity | unfold OrderedDict.len in G; simpl in G; lia].
Qed.

Lemma get_from_cache_disabled k s :
  cache_enabled s = false -> _get_from_cache k s = mkOut s [] (inl None).
Proof. intros E; unfold _get_from_cache, bind, gets; simpl; rewrite E; reflexivity. Qed.

Lemma get_from_cache_miss k s :
  OrderedDict.lookup k (frame_cache s) = None ->
  _get_from_cache k s = mkOut s [] (inl None).
Proof.
  intros L; unfold _get_from_cache, bind, gets; simpl.
  destruct (cache_enabled s); simpl; [rewrite L|]; reflexivity.
Qed.

Lemma get_from_cache_hit k f s :
  cache_enabled s = true ->
  OrderedDict.lookup k (frame_cache s) = Some f ->
  _get_from_cache k s =
  mkOut (set_frame_cache
           (OrderedDict.setitem k f (OrderedDict.remove k (frame_cache s))) s)
        [] (inl (Some f)).
Proof.
  intros E L; unfold _get_from_cache, bind, gets; simpl; rewrite E; simpl.
  rewrite L; reflexivity.
Qed.

(** The three cases of a lookup, for case analysis in the proofs below. *)
Lemma get_from_cache_cases k s :
  (_get_from_cache k s = mkOut s [] (inl None) /\
   (cache_enabled s = false \/ OrderedDict.lookup k (frame_cache s) = None)) \/
  (exists f,
     cache_enabled s = true /\
     OrderedDict.lookup k (frame_cache s) = Some f /\
     _get_from_cache k s =
     mkOut (set_frame_cache
              (OrderedDict.setitem k f (OrderedDict.remove k (frame_cache s))) s)
           [] (inl (Some f))).
Proof.
  destruct (cache_enabled s) eqn:E.
  - destruct (OrderedDict.lookup k (frame_cache s)) as [f|] eqn:L.
    + right; exists f; auto using get_from_cache_hit.
    + left; auto using get_from_cache_miss.
  - left; auto using get_from_cache_disabled.
Qed.

(** An insert either raises [KeyError] on an empty cache whose bound is not
    positive, or replaces the cache by [setitem] on the cache or its tail. *)
Lemma add_to_cache_cases k f s :
  _add_to_cache k f s = mkOut s [] (inl tt) /\ cache_enabled s = false \/
  (cache_enabled s = true /\
   OrderedDict.len (frame_cache s) < cache_size s /\
   _add_to_cache k f s =
   mkOut (set_frame_cache (OrderedDict.setitem k f (frame_cache s)) s) [] (inl tt)) \/
  (exists e d,
     cache_enabled s = true /\
     cache_size s <= OrderedDict.len (frame_cache s) /\
     frame_cache s = e :: d /\
     _add_to_cache k f s =
     mkOut (set_frame_cache (OrderedDict.setitem k f d) s) [] (inl tt)) \/
  (cache_enabled s = true /\ cache_size s <= 0 /\ frame_cache s = [] /\
   _add_to_cache k f s = mkOut s [] (inr KeyError)).
Proof.
  destruct (cache_enabled s) eqn:E.
  - destruct (Z_lt_le_dec (OrderedDict.len (frame_cache s)) (cache_size s)) as [L|L].
    + right; left; auto using add_to_cache_room.
    + destruct (frame_cache s) as [|e d] eqn:D.
      * right; right; right. simpl in L.
        repeat split; auto. apply add_to_cache_empty_full; auto.
      * right; right; left; exists e, d. repeat split; auto.
        apply add_to_cache_full with (e := e); auto. rewrite D; exact L.
  - left; auto using add_to_cache_disabled.
Qed.

Lemma lookup_setitem_same k f (d : od) :
  OrderedDict.lookup k (OrderedDict.setitem k f d) = Some f.
Proof.
  induction d as [|[k' v'] d IH]; simpl.
  - rewrite Z.eqb_refl; reflexivity.
  - destruct (Z.eqb_spec k' k) as [E|N]; simpl.
    + rewrite Z.eqb_refl; reflexivity.
    + destruct (Z.eqb_spec k' k); [contradiction | exact IH].
Qed.

(** ** C2, C10, C8: the size of the cache *)

Lemma cache_op_bounded op s :
  0 < cache_size s ->
  cache_len s <= cache_size s ->
  out_result (cache_op op s) = inl tt /\
  cache_size (out_state (cache_op op s)) = cache_size s /\
  cache_len (out_state (cache_op op s)) <= cache_size s.
Proof.
  unfold cache_len, OrderedDict.len; intros C L.
  destruct op as [k|k f|]; unfold cache_op.
  - unfold bind.
    destruct (get_from_cache_cases k s) as [[-> _]|[f [_ [Hit ->]]]]; simpl; auto.
    repeat split; auto.
    pose proof (OrderedDictFacts.length_remove_hit _ _ _ Hit).
    pose proof (OrderedDictFacts.length_setitem_le k f
                  (OrderedDict.remove k (frame_cache s))).
    lia.
  - destruct (add_to_cache_cases k f s)
      as [[-> _]|[[_ [R ->]]|[[e [d [_ [F [D ->]]]]]|[_ [Z0 _]]]]]; simpl; auto.
    + unfold OrderedDict.len in R.
      pose proof (OrderedDictFacts.length_setitem_le k f (frame_cache s)).
      repeat split; auto; lia.
    + pose proof (OrderedDictFacts.length_setitem_le k f d).
      rewrite D in L; simpl in L.
      repeat split; auto; lia.
    + lia.
  - simpl; repeat split; auto; lia.
Qed.

(** C2.  With a fixed capacity [C > 0], a cache that holds at most [C]
    entries (the empty cache of a new handler in particular) holds at most
    [C] entries after every operation of every sequence of lookups, inserts
    and clears, and none of these operations raises. *)
Theorem cache_never_exceeds_capacity :
  forall (C : Z) (ops : list CacheOp) (s : VideoHandler),
    0 < C ->
    cache_size s = C ->
    cache_len s <= C ->
    Forall (fun o => out_result o = inl tt /\ cache_len (out_state o) <= C)
           (cache_run ops s).
Proof.
  intros C ops; induction ops as [|op ops IH]; intros s HC HS HL; simpl.
  - constructor.
  - subst C.
    destruct (cache_op_bounded op s HC HL) as [R [S' L']].
    constructor; [auto|].
    rewrite <- S' in *. apply IH; auto.
Qed.

Lemma cache_never_exceeds_capacity_witness :
  Forall (fun o => out_result o = inl tt /\ cache_len (out_state o) <= 2)
         (cache_run [CachePut 1 [10]; CachePut 2 [20]; CacheGet 1;
                     CachePut 3 [30]; CacheClear; CachePut 4 [40]]
                    (init 2)).
Proof.
  apply cache_never_exceeds_capacity; [lia | reflexivity | vm_compute; discriminate].
Defined.

(** C10.  An insert into an enabled cache never fails when the capacity is
    at least 1: the eviction branch is then only taken on a cache that has
    an entry to pop, and the frame is in the cache afterwards.  With a
    capacity of 0 or less and an empty cache the eviction branch pops from
    the empty dictionary and the insert raises [KeyError], leaving the
    handler as it was. *)
Theorem add_to_cache_needs_positive_capacity :
  forall (k : Z) (f : Frame) (s : VideoHandler),
    cache_enabled s = true ->
    (1 <= cache_size s ->
     out_result (_add_to_cache k f s) = inl tt /\
     OrderedDict.lookup k (frame_cache (out_state (_add_to_cache k f s))) = Some f) /\
    (cache_size s <= 0 -> frame_cache s = [] ->
     _add_to_cache k f s = mkOut s [] (inr KeyError)).
Proof.
  intros k f s E; split.
  - intros C.
    destruct (add_to_cache_cases k f s)
      as [[_ D]|[[_ [_ ->]]|[[e [d [_ [_ [_ ->]]]]]|[_ [Z0 _]]]]]; simpl.
    + congruence.
    + auto using lookup_setitem_same.
    + auto using lookup_setitem_same.
    + lia.
  - intros; apply add_to_cache_empty_full; assumption.
Qed.

Lemma add_to_cache_needs_positive_capacity_witness :
  (out_result (_add_to_cache 7 [70] (init 1)) = inl tt /\
   OrderedDict.lookup 7
     (frame_cache (out_state (_add_to_cache 7 [70] (init 1)))) = Some [70]) /\
  _add_to_cache 7 [70] (init 0) = mkOut (init 0) [] (inr KeyError).
Proof.
  split.
  - apply (add_to_cache_needs_positive_capacity 7 [70] (init 1));
      [reflexivity | simpl; lia].
  - apply (add_to_cache_needs_positive_capacity 7 [70] (init 0));
      [reflexivity | simpl; lia | reflexivity].
Defined.

(** C8, as the specification words it, fails: the settings code assigns
    the new bound and evicts nothing. *)
Lemma shrinking_capacity_evicts_nothing :
  ~ (forall (s : VideoHandler) (n : Z) (enabled : bool),
       n < cache_len s ->
       cache_len (out_state (apply_cache_settings n enabled s)) = n).
Proof.
  intros H.
  specialize (H (mkHandler None None 0 [(1, [10]); (2, [20]); (3, [30])] 3 true)
                1 true).
  vm_compute in H.
  assert (L : (1 ?= 3) = Lt) by reflexivity.
  specialize (H L); discriminate.
Qed.

(** C8, amended.  Applying the cache settings replaces the bound and the
    enabled flag and nothing else: the cache keeps every entry, in the same
    order, whatever the new bound is. *)
Theorem apply_cache_settings_keeps_entries :
  forall (s : VideoHandler) (n : Z) (enabled : bool),
    apply_cache_settings n enabled s =
    mkOut (mkHandler (cap s) (current_video s) (frame_count s)
                     (frame_cache s) n enabled)
          [] (inl tt).
Proof. reflexivity. Qed.

(** ** The decoder model and the invariants *)

Lemma prefetch_windows_app evs evs' :
  prefetch_windows (evs ++ evs') = prefetch_windows evs ++ prefetch_windows evs'.
Proof.
  induction evs as [|e evs IH]; simpl; [reflexivity|].
  destruct e; simpl; rewrite ?IH; reflexivity.
Qed.

Lemma same_media_refl c : same_media c c.
Proof. unfold same_media; auto. Qed.

Lemma same_media_trans c1 c2 c3 :
  same_media c1 c2 -> same_media c2 c3 -> same_media c1 c3.
Proof. unfold same_media; intuition congruence. Qed.

Lemma steady_refl s : steady s s.
Proof.
  unfold steady; repeat split; auto.
  destruct (cap s); auto using same_media_refl.
Qed.

Lemma steady_trans s1 s2 s3 : steady s1 s2 -> steady s2 s3 -> steady s1 s3.
Proof.
  unfold steady; intros [A1 [B1 [C1 [D1 E1]]]] [A2 [B2 [C2 [D2 E2]]]].
  repeat split; try congruence.
  destruct (cap s1), (cap s2), (cap s3); try tauto.
  eauto using same_media_trans.
Qed.

Lemma steady_cap s s' c :
  steady s s' -> cap s = Some c ->
  exists c', cap s' = Some c' /\ same_media c c'.
Proof.
  intros [_ [_ [_ [_ H]]]] E; rewrite E in H.
  destruct (cap s') as [c'|]; [eauto | contradiction].
Qed.

Lemma frame_at_same_media c c' k :
  same_media c c' -> frame_at c' k = frame_at c k.
Proof. intros [O [S _]]; unfold frame_at; rewrite O, S; reflexivity. Qed.

Lemma same_media_set_pos n c : same_media c (capture_set_pos n c).
Proof.
  unfold capture_set_pos, same_media; destruct (cap_opened c) eqn:O; simpl; auto.
Qed.

Lemma get_pos_set_pos n c :
  cap_opened c = true -> capture_get_pos (capture_set_pos n c) = n.
Proof. intros O; unfold capture_get_pos, capture_set_pos; rewrite O; simpl; reflexivity. Qed.

Lemma frame_at_opened c k f : frame_at c k = Some f -> cap_opened c = true.
Proof. unfold frame_at; destruct (cap_opened c); [auto | discriminate]. Qed.

(** A read that succeeds delivers the frame under the cursor and moves the
    cursor on by one; a read that fails changes nothing. *)
Lemma capture_read_some c f c' :
  capture_read c = (Some f, c') ->
  frame_at c (capture_get_pos c) = Some f /\
  same_media c c' /\
  capture_get_pos c' = capture_get_pos c + 1.
Proof.
  unfold capture_read.
  destruct (frame_at c (cap_pos c)) as [g|] eqn:F; [|discriminate].
  intros H; inversion H; subst; clear H.
  pose proof (frame_at_opened _ _ _ F) as O.
  unfold capture_get_pos, same_media; simpl; rewrite O; auto.
Qed.

Lemma capture_read_none c c' :
  capture_read c = (None, c') ->
  c' = c /\ frame_at c (capture_get_pos c) = None.
Proof.
  unfold capture_read.
  destruct (frame_at c (cap_pos c)) eqn:F; [discriminate|].
  intros H; inversion H; subst c'; split; [reflexivity|].
  unfold capture_get_pos; destruct (cap_opened c) eqn:O; [exact F|].
  unfold frame_at; rewrite O; reflexivity.
Qed.

Lemma capture_read_at c f :
  frame_at c (capture_get_pos c) = Some f ->
  exists c', capture_read c = (Some f, c').
Proof.
  intros F; pose proof (frame_at_opened _ _ _ F) as O.
  unfold capture_get_pos in F; rewrite O in F.
  unfold capture_read; rewrite F; eauto.
Qed.

(** Changing the cursor or the cache of a consistent handler. *)
Lemma consistent_set_cap s c c' :
  cap s = Some c -> same_media c c' ->
  cache_consistent s -> cache_consistent (set_cap (Some c') s).
Proof.
  intros E SM H k f I; simpl in I.
  destruct (H k f I) as [c0 [E0 F]].
  exists c'; split; [reflexivity|].
  rewrite E in E0; inversion E0; subst.
  rewrite (frame_at_same_media _ _ k SM); assumption.
Qed.

Lemma consistent_insert s c k f d :
  cap s = Some c -> frame_at c k = Some f ->
  (forall e, In e d -> In e (frame_cache s)) ->
  cache_consistent s ->
  cache_consistent (set_frame_cache (OrderedDict.setitem k f d) s).
Proof.
  intros E F Sub H k' f' I; simpl in I.
  destruct (OrderedDictFacts.In_setitem _ _ _ _ I) as [Eq|I'].
  - inversion Eq; subst; exists c; auto.
  - apply (H k' f'); auto.
Qed.

Lemma steady_set_cap s c c' :
  cap s = Some c -> same_media c c' -> steady s (set_cap (Some c') s).
Proof. intros E SM; unfold steady; simpl; rewrite E; auto 6. Qed.

Lemma steady_set_cache s d : steady s (set_frame_cache d s).
Proof.
  unfold steady; simpl; repeat split; auto.
  destruct (cap s); auto using same_media_refl.
Qed.

(** ** Rules for the normal outcome *)

Lemma post_weaken {A} (m : M A) s (Q Q' : A -> VideoHandler -> list Event -> Prop) :
  post m s Q -> (forall a s' evs, Q a s' evs -> Q' a s' evs) -> post m s Q'.
Proof. intros [a [R H]] W; exists a; auto. Qed.

Lemma post_ret {A} (a : A) s (Q : A -> VideoHandler -> list Event -> Prop) :
  Q a s [] -> post (ret a) s Q.
Proof. intros H; exists a; auto. Qed.

Lemma post_bind {A B} (m : M A) (k : A -> M B) s
  (Q : B -> VideoHandler -> list Event -> Prop) :
  post m s (fun a s1 ev1 => post (k a) s1 (fun b s2 ev2 => Q b s2 (ev1 ++ ev2))) ->
  post (bind m k) s Q.
Proof.
  intros [a [R [b [R' H]]]]; exists b.
  unfold bind; rewrite R; simpl; auto.
Qed.

Lemma post_gets {A} (f : VideoHandler -> A) s
  (Q : A -> VideoHandler -> list Event -> Prop) :
  Q (f s) s [] -> post (gets f) s Q.
Proof. intros H; exists (f s); auto. Qed.

Lemma post_modify (f : VideoHandler -> VideoHandler) s
  (Q : unit -> VideoHandler -> list Event -> Prop) :
  Q tt (f s) [] -> post (modify f) s Q.
Proof. intros H; exists tt; auto. Qed.

Lemma post_emit e s (Q : unit -> VideoHandler -> list Event -> Prop) :
  Q tt s [e] -> post (emit e) s Q.
Proof. intros H; exists tt; auto. Qed.

Lemma post_cap_get_pos s c (Q : Z -> VideoHandler -> list Event -> Prop) :
  cap s = Some c -> Q (capture_get_pos c) s [GetPos] -> post cap_get_pos s Q.
Proof.
  intros E H; exists (capture_get_pos c); unfold cap_get_pos; rewrite E; auto.
Qed.

Lemma post_cap_set_pos n s c (Q : unit -> VideoHandler -> list Event -> Prop) :
  cap s = Some c ->
  Q tt (set_cap (Some (capture_set_pos n c)) s) [SetPos n] ->
  post (cap_set_pos n) s Q.
Proof. intros E H; exists tt; unfold cap_set_pos; rewrite E; auto. Qed.

Lemma post_cap_read s c (Q : option Frame -> VideoHandler -> list Event -> Prop) :
  cap s = Some c ->
  (forall r c', capture_read c = (r, c') -> Q r (set_cap (Some c') s) [Read]) ->
  post cap_read s Q.
Proof.
  intros E H; unfold post, cap_read; rewrite E.
  destruct (capture_read c) as [r c'] eqn:R; exists r; simpl; auto.
Qed.

Lemma kept_refl s : kept s s.
Proof. split; auto using steady_refl. Qed.

Lemma kept_trans s1 s2 s3 : kept s1 s2 -> kept s2 s3 -> kept s1 s3.
Proof. intros [S C] [S' C']; split; eauto using steady_trans. Qed.

Lemma kept_set_cap s c c' :
  cap s = Some c -> same_media c c' -> kept s (set_cap (Some c') s).
Proof.
  intros E SM; split.
  - apply steady_set_cap with (c := c); assumption.
  - apply consistent_set_cap with (c := c); assumption.
Qed.

Lemma kept_size s s' : kept s s' -> cache_size s' = cache_size s.
Proof. intros [[_ [_ [Sz _]]] _]; exact Sz. Qed.

Lemma kept_cap s s' c :
  kept s s' -> cap s = Some c -> exists c', cap s' = Some c' /\ same_media c c'.
Proof. intros [S _]; eauto using steady_cap. Qed.

(** ** The prefetcher *)

Lemma post_add_to_cache k f s c :
  cap s = Some c -> frame_at c k = Some f -> 1 <= cache_size s ->
  post (_add_to_cache k f) s
       (fun _ s' evs => kept s s' /\ cap s' = cap s /\ evs = []).
Proof.
  intros E F C; exists tt.
  destruct (add_to_cache_cases k f s)
    as [[-> _]|[[_ [_ ->]]|[[e [d [_ [_ [D ->]]]]]|[_ [Z0 _]]]]]; simpl;
    unfold kept.
  - auto using steady_refl.
  - refine (conj eq_refl (conj (conj (steady_set_cache _ _) _) (conj eq_refl eq_refl))).
    intros H; eapply consistent_insert; eauto.
  - refine (conj eq_refl (conj (conj (steady_set_cache _ _) _) (conj eq_refl eq_refl))).
    intros H; eapply consistent_insert; eauto.
    intros x I; rewrite D; right; assumption.
  - lia.
Qed.

Lemma post_get_from_cache k s :
  post (_get_from_cache k) s
       (fun r s' evs =>
          kept s s' /\ cap s' = cap s /\ evs = [] /\
          match r with
          | Some f => cache_enabled s = true /\
                      OrderedDict.lookup k (frame_cache s) = Some f
          | None => s' = s /\
                    (cache_enabled s = false \/
                     OrderedDict.lookup k (frame_cache s) = None)
          end).
Proof.
  unfold post, kept.
  destruct (get_from_cache_cases k s) as [[-> D]|[f [En [Hit ->]]]]; simpl.
  - exists None; auto 8 using steady_refl.
  - exists (Some f).
    refine (conj eq_refl (conj (conj (steady_set_cache _ _) _)
              (conj eq_refl (conj eq_refl (conj En Hit))))).
    intros H k' f' I; simpl in I.
    destruct (OrderedDictFacts.In_setitem _ _ _ _ I) as [Eq|I'].
    + inversion Eq; subst. apply H. apply OrderedDictFacts.lookup_In; assumption.
    + apply H. eapply OrderedDictFacts.In_remove; eassumption.
Qed.

Lemma prefetch_frame_ok k s c :
  cap s = Some c -> 1 <= cache_size s ->
  post (prefetch_frame k) s
       (fun _ s' evs => kept s s' /\ prefetch_windows evs = []).
Proof.
  intros E C. unfold prefetch_frame.
  apply post_bind, post_gets.
  destruct (OrderedDict.contains k (frame_cache s)).
  { apply post_ret; auto using kept_refl. }
  apply post_bind, post_cap_set_pos with (c := c); [assumption|].
  pose proof (same_media_set_pos k c) as SM.
  apply post_bind, post_cap_read with (c := capture_set_pos k c); [reflexivity|].
  intros r c' R.
  set (s1 := set_cap (Some c') (set_cap (Some (capture_set_pos k c)) s)).
  assert (SM2 : same_media c c').
  { destruct r.
    - destruct (capture_read_some _ _ _ R) as [_ [SM' _]].
      eauto using same_media_trans.
    - apply capture_read_none in R; destruct R as [-> _]; assumption. }
  assert (K1 : kept s s1) by exact (kept_set_cap s c c' E SM2).
  destruct r as [f|].
  - destruct (capture_read_some _ _ _ R) as [F [SM' P]].
    assert (Fk : frame_at c' k = Some f).
    { rewrite (frame_at_same_media _ _ k SM2).
      rewrite <- (frame_at_same_media _ _ _ SM).
      rewrite get_pos_set_pos in F; [assumption|].
      pose proof (frame_at_opened _ _ _ F) as O.
      destruct SM as [O' _]; congruence. }
    eapply post_weaken.
    + apply (post_add_to_cache k (copy f) s1 c' eq_refl Fk C).
    + intros _ s' evs [K [_ ->]]; simpl. split; [|reflexivity].
      eapply kept_trans; eassumption.
  - apply post_ret; auto.
Qed.

Lemma for_each_prefetch_ok ks : forall s c,
  cap s = Some c -> 1 <= cache_size s ->
  post (for_each ks prefetch_frame) s
       (fun _ s' evs => kept s s' /\ prefetch_windows evs = []).
Proof.
  induction ks as [|k ks IH]; intros s c E C; simpl.
  - apply post_ret; auto using kept_refl.
  - apply post_bind.
    eapply post_weaken; [eapply prefetch_frame_ok; eassumption|].
    intros _ s1 ev1 [K1 W1]; simpl.
    destruct (kept_cap _ _ _ K1 E) as [c1 [E1 _]].
    assert (Sz : 1 <= cache_size s1) by (rewrite (kept_size _ _ K1); exact C).
    eapply post_weaken; [eapply IH; eassumption|].
    intros _ s2 ev2 [K2 W2]; simpl.
    rewrite prefetch_windows_app, W1, W2.
    split; [eapply kept_trans; eassumption | reflexivity].
Qed.

Lemma get_current_position_restored s s' c c' :
  cap s = Some c -> cap s' = Some c' -> same_media c c' ->
  get_current_position
    (set_cap (Some (capture_set_pos (capture_get_pos c) c')) s') =
  get_current_position s.
Proof.
  intros E E' [O _]; unfold get_current_position; simpl; rewrite E.
  unfold capture_get_pos, capture_set_pos; rewrite O.
  destruct (cap_opened c) eqn:Oc; simpl; rewrite ?O; reflexivity.
Qed.

(** The prefetcher returns normally, leaves the cursor where it was, and
    records one invocation. *)
Lemma prefetch_frames_ok a b s :
  1 <= cache_size s ->
  post (_prefetch_frames a b) s
       (fun _ s' evs =>
          kept s s' /\
          get_current_position s' = get_current_position s /\
          prefetch_windows evs = [(a, b)]).
Proof.
  intros C. unfold _prefetch_frames.
  apply post_bind, post_emit.
  apply post_bind, post_gets.
  apply post_bind, post_gets.
  destruct (negb (cache_enabled s) || negb (has_cap s)) eqn:G.
  { apply post_ret; auto using kept_refl. }
  apply orb_false_elim in G; destruct G as [_ G].
  unfold has_cap in G. destruct (cap s) as [c|] eqn:E; [|discriminate].
  apply post_bind, post_cap_get_pos with (c := c); [assumption|].
  apply post_bind, post_gets.
  apply post_bind.
  eapply post_weaken; [eapply for_each_prefetch_ok; eassumption|].
  intros _ s1 ev1 [K1 W1]; simpl.
  destruct (kept_cap _ _ _ K1 E) as [c1 [E1 SM1]].
  apply post_cap_set_pos with (c := c1); [assumption|].
  split; [|split].
  - eapply kept_trans; [eassumption|].
    apply kept_set_cap with (c := c1); auto using same_media_set_pos.
  - apply get_current_position_restored; assumption.
  - simpl. rewrite prefetch_windows_app, W1; reflexivity.
Qed.

(** The two ways the loop body passes an index by. *)
Lemma prefetch_frame_cached k s :
  OrderedDict.contains k (frame_cache s) = true ->
  prefetch_frame k s = mkOut s [] (inl tt).
Proof.
  intros H; unfold prefetch_frame, bind, gets; simpl; rewrite H; reflexivity.
Qed.

Lemma prefetch_frame_unreadable k s c :
  cap s = Some c ->
  OrderedDict.contains k (frame_cache s) = false ->
  frame_at c k = None ->
  prefetch_frame k s =
  mkOut (set_cap (Some (capture_set_pos k c)) s) [SetPos k; Read] (inl tt).
Proof.
  intros E H F; unfold prefetch_frame, bind, gets; simpl; rewrite H.
  unfold cap_set_pos, cap_read; rewrite E; simpl.
  assert (R : capture_read (capture_set_pos k c) = (None, capture_set_pos k c)).
  { unfold capture_read.
    replace (frame_at (capture_set_pos k c) (cap_pos (capture_set_pos k c)))
      with (@None Frame); [reflexivity|].
    symmetry. unfold capture_set_pos.
    destruct (cap_opened c) eqn:O; simpl.
    - unfold frame_at in *; simpl; rewrite O in *; exact F.
    - unfold frame_at; rewrite O; reflexivity. }
  rewrite R; reflexivity.
Qed.

(** ** The three frame operations *)

Lemma steady_frame_count s s' : steady s s' -> frame_count s' = frame_count s.
Proof. intros [_ [F _]]; exact F. Qed.

Lemma cached_consistent k f s c :
  cap s = Some c -> cache_consistent s -> cached k s = Some f ->
  frame_at c k = Some f.
Proof.
  unfold cached; intros E H L.
  destruct (cache_enabled s); [|discriminate].
  apply OrderedDictFacts.lookup_In in L.
  destruct (H _ _ L) as [c0 [E0 F]]; congruence.
Qed.

Lemma get_current_frame_ok s c :
  cap s = Some c -> cache_consistent s -> 1 <= cache_size s ->
  post get_current_frame s
       (fun r s' evs =>
          kept s s' /\
          r = frame_at c (capture_get_pos c) /\
          get_current_position s' =
            match r with
            | Some _ => capture_get_pos c + 1
            | None => capture_get_pos c
            end /\
          prefetch_windows evs =
            match cached (capture_get_pos c) s, r with
            | None, Some _ => sequential_window (capture_get_pos c) (frame_count s)
            | _, _ => []
            end).
Proof.
  intros E H C. unfold get_current_frame.
  set (n := capture_get_pos c).
  apply post_bind, post_gets.
  unfold has_cap at 1; rewrite E; simpl negb; cbv iota.
  apply post_bind, post_cap_get_pos with (c := c); [assumption|]. fold n.
  apply post_bind.
  eapply post_weaken; [apply post_get_from_cache|].
  intros r0 s1 ev1 [K1 [E1 [-> Hr]]]; simpl.
  rewrite E in E1.
  destruct r0 as [f|].
  - (* served from the cache; one read moves the cursor on *)
    destruct Hr as [En Hit].
    assert (Cn : cached n s = Some f) by (unfold cached; rewrite En; exact Hit).
    pose proof (cached_consistent _ _ _ _ E H Cn) as F.
    destruct (capture_read_at _ _ F) as [c1 R1].
    destruct (capture_read_some _ _ _ R1) as [_ [SM P]].
    apply post_bind, post_cap_read with (c := c); [assumption|].
    intros r c' R; rewrite R1 in R; inversion R; subst r c'; clear R.
    apply post_ret. rewrite Cn, F. unfold copy.
    refine (conj _ (conj eq_refl (conj P eq_refl))).
    eapply kept_trans; [eassumption|].
    apply kept_set_cap with (c := c); assumption.
  - (* decoded *)
    destruct Hr as [-> Miss].
    assert (Cn : cached n s = None).
    { unfold cached; destruct Miss as [D|L]; [rewrite D | rewrite L; destruct (cache_enabled s)]; reflexivity. }
    apply post_bind, post_cap_read with (c := c); [assumption|].
    intros r c' R. rewrite Cn.
    destruct r as [f|].
    + destruct (capture_read_some _ _ _ R) as [F [SM P]]. fold n in F, P.
      set (s2 := set_cap (Some c') s).
      assert (K2 : kept s s2) by exact (kept_set_cap s c c' E SM).
      assert (Fc : frame_at c' n = Some f).
      { rewrite (frame_at_same_media _ _ n SM); exact F. }
      apply post_bind.
      eapply post_weaken;
        [apply (post_add_to_cache n (copy f) s2 c' eq_refl Fc C)|].
      intros _ s3 ev3 [K3 [E3 ->]]; simpl.
      apply post_bind, post_gets.
      assert (K13 : kept s s3) by (eapply kept_trans; eassumption).
      assert (FC : frame_count s3 = frame_count s)
        by (apply steady_frame_count; apply K13).
      assert (P3 : get_current_position s3 = n + 1).
      { unfold get_current_position; rewrite E3; simpl; exact P. }
      assert (Sz : 1 <= cache_size s3) by (rewrite (kept_size _ _ K13); exact C).
      apply post_bind.
      unfold sequential_window. rewrite FC.
      destruct (Z.min (n + 10) (frame_count s) >? n + 1).
      * eapply post_weaken; [apply (prefetch_frames_ok _ _ s3 Sz)|].
        intros _ s4 ev4 [K4 [P4 W4]]; simpl.
        apply post_ret. rewrite F.
        refine (conj _ (conj eq_refl (conj _ _))).
        -- eapply kept_trans; eassumption.
        -- congruence.
        -- rewrite app_nil_r; exact W4.
      * apply post_ret, post_ret. rewrite F.
        refine (conj K13 (conj eq_refl (conj P3 eq_refl))).
    + apply capture_read_none in R; destruct R as [-> F]. fold n in F.
      apply post_ret. rewrite F.
      exact (conj (kept_set_cap s c c E (same_media_refl c))
                  (conj eq_refl (conj eq_refl eq_refl))).
Qed.

Lemma frame_at_after_set_pos n c :
  frame_at (capture_set_pos n c) (capture_get_pos (capture_set_pos n c)) =
  frame_at c n.
Proof.
  destruct (cap_opened c) eqn:O.
  - rewrite get_pos_set_pos by assumption.
    apply frame_at_same_media, same_media_set_pos.
  - unfold capture_set_pos; rewrite O.
    unfold frame_at; rewrite O; reflexivity.
Qed.

Lemma get_frame_at_position_ok n s c :
  cap s = Some c -> cache_consistent s -> 1 <= cache_size s ->
  post (get_frame_at_position n) s
       (fun r s' evs =>
          kept s s' /\
          r = frame_at c n /\
          get_current_position s' =
            match r with
            | Some _ => n + 1
            | None => capture_get_pos (capture_set_pos n c)
            end /\
          prefetch_windows evs =
            match cached n s with
            | Some _ => []
            | None =>
                match r with
                | Some _ => sequential_window n (frame_count s)
                | None => []
                end ++ [(Z.max 0 (n - 5), Z.min (n + 15) (frame_count s))]
            end).
Proof.
  intros E H C. unfold get_frame_at_position.
  apply post_bind, post_gets.
  unfold has_cap at 1; rewrite E; simpl negb; cbv iota.
  apply post_bind.
  eapply post_weaken; [apply post_get_from_cache|].
  intros r0 s1 ev1 [K1 [E1 [-> Hr]]]; simpl.
  rewrite E in E1.
  destruct r0 as [f|].
  - (* served from the cache; the cursor is set to the next index *)
    destruct Hr as [En Hit].
    assert (Cn : cached n s = Some f) by (unfold cached; rewrite En; exact Hit).
    pose proof (cached_consistent _ _ _ _ E H Cn) as F.
    pose proof (frame_at_opened _ _ _ F) as O.
    apply post_bind, post_cap_set_pos with (c := c); [assumption|].
    apply post_ret. rewrite Cn, F. unfold copy.
    refine (conj _ (conj eq_refl (conj _ eq_refl))).
    + eapply kept_trans; [eassumption|].
      apply kept_set_cap with (c := c); auto using same_media_set_pos.
    + unfold get_current_position; simpl. apply get_pos_set_pos; exact O.
  - (* decoded through get_current_frame, then the window around n *)
    destruct Hr as [-> Miss].
    assert (Cn : cached n s = None).
    { unfold cached; destruct Miss as [D|L];
        [rewrite D | rewrite L; destruct (cache_enabled s)]; reflexivity. }
    rewrite Cn.
    apply post_bind, post_cap_set_pos with (c := c); [assumption|].
    set (c2 := capture_set_pos n c).
    set (s2 := set_cap (Some c2) s).
    assert (K2 : kept s s2)
      by exact (kept_set_cap s c c2 E (same_media_set_pos n c)).
    assert (H2 : cache_consistent s2) by (apply K2; exact H).
    assert (Sz2 : 1 <= cache_size s2) by exact C.
    apply post_bind.
    eapply post_weaken;
      [apply (get_current_frame_ok s2 c2 eq_refl H2 Sz2)|].
    intros r s3 ev3 [K3 [Hr [P3 W3]]]; simpl.
    unfold c2 in Hr; rewrite frame_at_after_set_pos in Hr.
    assert (K13 : kept s s3) by (eapply kept_trans; eassumption).
    assert (FC : frame_count s3 = frame_count s)
      by (apply steady_frame_count; apply K13).
    assert (Sz3 : 1 <= cache_size s3) by (rewrite (kept_size _ _ K13); exact C).
    apply post_bind, post_gets. rewrite FC.
    apply post_bind.
    eapply post_weaken; [apply (prefetch_frames_ok _ _ s3 Sz3)|].
    intros _ s4 ev4 [K4 [P4 W4]]; simpl.
    apply post_ret.
    refine (conj _ (conj Hr (conj _ _))).
    + eapply kept_trans; eassumption.
    + rewrite P4, P3. destruct r as [f|]; [|reflexivity].
      symmetry in Hr; pose proof (frame_at_opened _ _ _ Hr) as O.
      unfold c2; rewrite get_pos_set_pos by exact O; reflexivity.
    + rewrite !prefetch_windows_app, W3, W4; simpl.
      destruct r as [f|].
      * symmetry in Hr; pose proof (frame_at_opened _ _ _ Hr) as O.
        unfold c2; rewrite get_pos_set_pos by exact O.
        change (cached n s2) with (cached n s); rewrite Cn; reflexivity.
      * destruct (cached (capture_get_pos c2) s2); reflexivity.
Qed.

Lemma seek_ok n s c :
  cap s = Some c -> 1 <= cache_size s ->
  post (seek n) s
       (fun _ s' evs =>
          kept s s' /\
          get_current_position s' = capture_get_pos (capture_set_pos n c) /\
          prefetch_windows evs =
            [(Z.max 0 (n - 5), Z.min (n + 20) (frame_count s))]).
Proof.
  intros E C. unfold seek.
  apply post_bind, post_gets.
  unfold has_cap at 1; rewrite E; simpl negb; cbv iota.
  apply post_bind, post_cap_set_pos with (c := c); [assumption|].
  set (s2 := set_cap (Some (capture_set_pos n c)) s).
  assert (K2 : kept s s2)
    by exact (kept_set_cap s c _ E (same_media_set_pos n c)).
  apply post_bind, post_gets.
  assert (Sz2 : 1 <= cache_size s2) by exact C.
  eapply post_weaken; [apply (prefetch_frames_ok _ _ s2 Sz2)|].
  intros _ s3 ev3 [K3 [P3 W3]]; simpl.
  refine (conj _ (conj _ _)).
  - eapply kept_trans; eassumption.
  - rewrite P3; reflexivity.
  - rewrite W3; reflexivity.
Qed.

(** ** C5: the prefetcher leaves the cursor where it found it *)

(** C5.  With a capacity of at least 1 (the Cache Configuration of the
    specification), every call of [_prefetch_frames], over any window and
    from any handler, returns normally with the decoder cursor at the
    position it had before the call.  Inside the sweep an index that is
    already cached is passed over without touching the handler, and an
    index whose read fails is skipped: the cache is left as it is and the
    sweep goes on. *)
Theorem prefetch_restores_cursor :
  forall (a b : Z) (s : VideoHandler),
    1 <= cache_size s ->
    (out_result (_prefetch_frames a b s) = inl tt /\
     get_current_position (out_state (_prefetch_frames a b s)) =
     get_current_position s) /\
    (forall k, OrderedDict.contains k (frame_cache s) = true ->
               prefetch_frame k s = mkOut s [] (inl tt)) /\
    (forall k c, cap s = Some c ->
                 OrderedDict.contains k (frame_cache s) = false ->
                 frame_at c k = None ->
                 out_result (prefetch_frame k s) = inl tt /\
                 frame_cache (out_state (prefetch_frame k s)) = frame_cache s).
Proof.
  intros a b s C; split; [|split].
  - destruct (prefetch_frames_ok a b s C) as [[] [R [_ [P _]]]]; auto.
  - intros k; apply prefetch_frame_cached.
  - intros k c E N F.
    rewrite (prefetch_frame_unreadable k s c E N F); auto.
Qed.

Lemma prefetch_restores_cursor_witness :
  let s := out_state (seek 3 (Fixtures.loaded 2 Fixtures.damaged)) in
  (out_result (_prefetch_frames 0 6 s) = inl tt /\
   get_current_position (out_state (_prefetch_frames 0 6 s)) = 3) /\
  prefetch_frame 5 s = mkOut s [] (inl tt) /\
  (out_result (prefetch_frame 4 s) = inl tt /\
   frame_cache (out_state (prefetch_frame 4 s)) = frame_cache s).
Proof.
  intros s.
  assert (C : 1 <= cache_size s) by (vm_compute; discriminate).
  destruct (prefetch_restores_cursor 0 6 s C) as [P [Q R]].
  split; [exact P | split].
  - apply Q; reflexivity.
  - apply (R 4 (mkCapture true (cap_stream Fixtures.damaged) 6 3));
      reflexivity.
Defined.

(** ** C9: without a decoder handle *)

Lemma unloaded_get_current_frame s :
  cap s = None -> get_current_frame s = mkOut s [] (inl None).
Proof.
  intros E; unfold get_current_frame, bind, gets, has_cap; simpl.
  rewrite E; reflexivity.
Qed.

Lemma unloaded_get_frame_at_position n s :
  cap s = None -> get_frame_at_position n s = mkOut s [] (inl None).
Proof.
  intros E; unfold get_frame_at_position, bind, gets, has_cap; simpl.
  rewrite E; reflexivity.
Qed.

Lemma unloaded_seek n s : cap s = None -> seek n s = mkOut s [] (inl tt).
Proof.
  intros E; unfold seek, bind, gets, has_cap; simpl.
  rewrite E; reflexivity.
Qed.

Lemma unloaded_prefetch a b s :
  cap s = None -> _prefetch_frames a b s = mkOut s [Prefetch a b] (inl tt).
Proof.
  intros E; unfold _prefetch_frames, bind, gets, emit, has_cap; simpl.
  rewrite E; simpl. rewrite orb_true_r; reflexivity.
Qed.

(** C9.  On a handler without a decoder handle [get_current_frame] and
    [get_frame_at_position] return [None], [seek] and the prefetcher do
    nothing, and none of them raises or reaches the decoder: the handler is
    left exactly as it was.  The cache does not raise either: a lookup
    always returns, and so does an insert under the Cache Configuration of
    the specification (capacity at least 1). *)
Theorem unloaded_operations_fail_softly :
  forall s : VideoHandler,
    cap s = None ->
    get_current_frame s = mkOut s [] (inl None) /\
    (forall n, get_frame_at_position n s = mkOut s [] (inl None)) /\
    (forall n, seek n s = mkOut s [] (inl tt)) /\
    (forall a b, _prefetch_frames a b s = mkOut s [Prefetch a b] (inl tt)) /\
    (forall k, exists r, out_result (_get_from_cache k s) = inl r) /\
    (1 <= cache_size s ->
     forall k f, out_result (_add_to_cache k f s) = inl tt).
Proof.
  intros s E.
  split; [|split; [|split; [|split; [|split]]]].
  - apply unloaded_get_current_frame; exact E.
  - intros n; apply unloaded_get_frame_at_position; exact E.
  - intros n; apply unloaded_seek; exact E.
  - intros a b; apply unloaded_prefetch; exact E.
  - intros k.
    destruct (get_from_cache_cases k s) as [[-> _]|[f [_ [_ ->]]]]; simpl; eauto.
  - intros C k f.
    destruct (add_to_cache_cases k f s)
      as [[-> _]|[[_ [_ ->]]|[[e [d [_ [_ [_ ->]]]]]|[_ [Z0 _]]]]]; simpl; auto.
    lia.
Qed.

Lemma unloaded_operations_fail_softly_witness :
  let s := mkHandler None None 0 [(5, [50])] 1 true in
  get_current_frame s = mkOut s [] (inl None) /\
  get_frame_at_position 5 s = mkOut s [] (inl None) /\
  seek 5 s = mkOut s [] (inl tt) /\
  _prefetch_frames 0 30 s = mkOut s [Prefetch 0 30] (inl tt) /\
  (exists r, out_result (_get_from_cache 5 s) = inl r) /\
  out_result (_add_to_cache 6 [60] s) = inl tt.
Proof.
  intros s.
  destruct (unloaded_operations_fail_softly s eq_refl)
    as [A [B [C [D [E F]]]]].
  split; [exact A | split; [apply B | split; [apply C | split; [apply D|]]]].
  split; [apply E | apply F; simpl; lia].
Defined.

(** After a [load_video] that opened nothing the handler holds a capture
    that is not opened.  The guards on [self.cap] let the operations
    through, and they still serve nothing and do not raise. *)
Lemma unopened_capture_serves_nothing s c n :
  cap s = Some c -> cap_opened c = false ->
  cache_consistent s -> 1 <= cache_size s ->
  out_result (get_current_frame s) = inl None /\
  out_result (get_frame_at_position n s) = inl None /\
  out_result (seek n s) = inl tt.
Proof.
  intros E O H C.
  assert (F : forall k, frame_at c k = None)
    by (intros k; unfold frame_at; rewrite O; reflexivity).
  destruct (get_current_frame_ok s c E H C) as [r1 [R1 [_ [Hr1 _]]]].
  destruct (get_frame_at_position_ok n s c E H C) as [r2 [R2 [_ [Hr2 _]]]].
  destruct (seek_ok n s c E C) as [[] [R3 _]].
  rewrite R1, R2, R3, Hr1, Hr2, !F; auto.
Qed.

(** ** C7: what a cache hit does to the decoder *)

Lemma cached_hit k f s :
  cached k s = Some f ->
  cache_enabled s = true /\ OrderedDict.lookup k (frame_cache s) = Some f.
Proof. unfold cached; destruct (cache_enabled s); [auto | discriminate]. Qed.

Lemma post_eq {A} (m : M A) s s1 evs a
  (Q : A -> VideoHandler -> list Event -> Prop) :
  m s = mkOut s1 evs (inl a) -> Q a s1 evs -> post m s Q.
Proof. intros E H; exists a; rewrite E; auto. Qed.

Lemma post_exact {A} (m : M A) s s1 evs a :
  post m s (fun a' s' evs' => a' = a /\ s' = s1 /\ evs' = evs) ->
  m s = mkOut s1 evs (inl a).
Proof.
  intros [a' [R [-> [<- <-]]]].
  destruct (m s) as [s0 e0 r0]; simpl in *; subst; reflexivity.
Qed.

(** A hit in [get_current_frame]: the position query, then one read whose
    result is dropped. *)
Lemma get_current_frame_hit s c f :
  cap s = Some c ->
  cached (capture_get_pos c) s = Some f ->
  get_current_frame s =
  mkOut (set_cap (Some (snd (capture_read c)))
           (set_frame_cache
              (OrderedDict.setitem (capture_get_pos c) f
                 (OrderedDict.remove (capture_get_pos c) (frame_cache s))) s))
        [GetPos; Read] (inl (Some (copy f))).
Proof.
  intros E Hc; destruct (cached_hit _ _ _ Hc) as [En Hit].
  apply post_exact. unfold get_current_frame.
  apply post_bind, post_gets.
  unfold has_cap at 1; rewrite E; simpl negb; cbv iota.
  apply post_bind, post_cap_get_pos with (c := c); [assumption|].
  apply post_bind.
  eapply post_eq; [apply (get_from_cache_hit _ _ _ En Hit)|].
  apply post_bind, post_cap_read with (c := c); [exact E|].
  intros r c' R. apply post_ret. rewrite R; auto.
Qed.

(** A hit in [get_frame_at_position]: one positioning call, to the next
    index. *)
Lemma get_frame_at_position_hit n s c f :
  cap s = Some c ->
  cached n s = Some f ->
  get_frame_at_position n s =
  mkOut (set_cap (Some (capture_set_pos (n + 1) c))
           (set_frame_cache
              (OrderedDict.setitem n f (OrderedDict.remove n (frame_cache s))) s))
        [SetPos (n + 1)] (inl (Some (copy f))).
Proof.
  intros E Hc; destruct (cached_hit _ _ _ Hc) as [En Hit].
  apply post_exact. unfold get_frame_at_position.
  apply post_bind, post_gets.
  unfold has_cap at 1; rewrite E; simpl negb; cbv iota.
  apply post_bind.
  eapply post_eq; [apply (get_from_cache_hit _ _ _ En Hit)|].
  apply post_bind, post_cap_set_pos with (c := c); [exact E|].
  apply post_ret; auto.
Qed.

(** C7, as the specification words it, fails in its second half: a hit in
    [get_frame_at_position] does call the decoder's positioning operation,
    the same [cap.set(CAP_PROP_POS_FRAMES, _)] that [seek] uses. *)
Lemma cache_hit_still_positions_decoder :
  ~ (forall (s : VideoHandler) (n : Z) (f : Frame),
       has_cap s = true ->
       cached n s = Some f ->
       forall e, In e (out_events (get_frame_at_position n s)) ->
                 e <> Read /\ forall m, e <> SetPos m).
Proof.
  intros H.
  destruct (H (Fixtures.loaded 5 (Fixtures.clip 4)) 2 [2] eq_refl eq_refl
              (SetPos 3)) as [_ N].
  - vm_compute; auto.
  - apply (N 3); reflexivity.
Qed.

(** C7, amended.  On a cache hit the cursor is still brought to one past
    the index served.  [get_current_frame] returns a copy of the cached
    frame and calls the decoder twice: the position query and exactly one
    sequential read, whose result is dropped.  [get_frame_at_position]
    returns a copy of the cached frame and calls the decoder once: it
    positions the cursor at [index + 1]; it issues no read and no
    prefetch. *)
Theorem cache_hit_decoder_calls :
  forall (s : VideoHandler) (c : Capture),
    cap s = Some c ->
    cache_consistent s ->
    (forall f,
       cached (capture_get_pos c) s = Some f ->
       out_result (get_current_frame s) = inl (Some (copy f)) /\
       out_events (get_current_frame s) = [GetPos; Read] /\
       get_current_position (out_state (get_current_frame s)) =
       capture_get_pos c + 1) /\
    (forall n f,
       cached n s = Some f ->
       out_result (get_frame_at_position n s) = inl (Some (copy f)) /\
       out_events (get_frame_at_position n s) = [SetPos (n + 1)] /\
       get_current_position (out_state (get_frame_at_position n s)) = n + 1).
Proof.
  intros s c E H; split.
  - intros f Hc.
    rewrite (get_current_frame_hit s c f E Hc); simpl.
    refine (conj eq_refl (conj eq_refl _)).
    pose proof (cached_consistent _ _ _ _ E H Hc) as F.
    destruct (capture_read_at _ _ F) as [c1 R1].
    destruct (capture_read_some _ _ _ R1) as [_ [_ P]].
    unfold get_current_position; simpl; rewrite R1; exact P.
  - intros n f Hc.
    rewrite (get_frame_at_position_hit n s c f E Hc); simpl.
    refine (conj eq_refl (conj eq_refl _)).
    pose proof (cached_consistent _ _ _ _ E H Hc) as F.
    unfold get_current_position; simpl.
    apply get_pos_set_pos. eapply frame_at_opened; eassumption.
Qed.

(** ** C6: the window of each prefetch trigger *)


(** ** C4: loading a video *)

Lemma try_backends_ok w path backends : forall s,
  post (try_backends w path backends) s
       (fun _ s' evs =>
          s' = s \/
          exists backend c0,
            open_with w path backend = Some c0 /\
            cap_opened c0 = true /\
            s' = set_cap (Some c0) s).
Proof.
  induction backends as [|b bs IH]; intros s; simpl.
  - apply post_ret; auto.
  - destruct (open_with w path b) as [c0|] eqn:O; [|apply IH].
    apply post_bind, post_emit.
    destruct (cap_opened c0) eqn:Oc.
    + apply post_modify; right; eauto.
    + apply post_bind, post_emit.
      eapply post_weaken; [apply IH|]; auto.
Qed.

Lemma consistent_empty s : frame_cache s = [] -> cache_consistent s.
Proof. intros E k f I; rewrite E in I; destruct I. Qed.

(** [load_video] from any handler, whatever it held before. *)
Lemma load_video_ok w path s :
  1 <= cache_size s ->
  post (load_video w path) s
       (fun r s' evs =>
          cache_size s' = cache_size s /\
          cache_enabled s' = cache_enabled s /\
          cache_consistent s' /\
          (has_cap s = true -> exists evs', evs = Release :: evs') /\
          match r with
          | None => frame_cache s' = []
          | Some fc =>
              exists c0 c,
                opened_by w path c0 /\ cap_opened c0 = true /\
                cap s' = Some c /\ same_media c0 c /\
                capture_get_pos c = capture_get_pos c0 /\
                frame_count s' = fc /\ fc = cap_frame_count c0
          end).
Proof.
  intros C. unfold load_video.
  apply post_bind, post_gets.
  apply post_bind.
  apply post_weaken with
    (Q := fun _ s' evs => s' = s /\
                          (has_cap s = true -> evs = [Release])).
  { destruct (has_cap s); [apply post_emit | apply post_ret]; auto.
    split; [reflexivity | discriminate]. }
  intros _ ? ev0 [-> Ev0].
  apply post_bind, post_modify.
  apply post_bind, post_modify.
  set (s1 := set_cap None (set_frame_cache OrderedDict.empty s)).
  apply post_bind.
  eapply post_weaken; [apply try_backends_ok|].
  intros u2 s2 ev2 D; simpl.
  apply post_bind, post_gets.
  apply post_bind.
  apply post_weaken with
    (Q := fun _ s' (_ : list Event) =>
            exists c0, opened_by w path c0 /\ s' = set_cap (Some c0) s1).
  { destruct D as [E2|[b [c0 [Ob [Oc E2]]]]]; rewrite E2; simpl.
    - apply post_bind, post_emit. apply post_modify.
      exists (open_default w path); split; [right|]; reflexivity.
    - apply post_ret. exists c0; split; [left; eauto | reflexivity]. }
  intros _ s3 ev3 [c0 [Ob E3]]; rewrite E3; clear E3.
  apply post_bind, post_gets. simpl cap. cbv iota.
  assert (Rel : has_cap s = true ->
                forall evs, exists evs', ev0 ++ evs = Release :: evs').
  { intros L evs; rewrite (Ev0 L); simpl; eauto. }
  destruct (cap_opened c0) eqn:Oc; simpl negb; cbv iota.
  - apply post_bind, post_modify.
    set (s4 := set_session path (cap_frame_count c0) (set_cap (Some c0) s1)).
    apply post_bind, post_gets.
    assert (Sz : 1 <= cache_size s4) by exact C.
    apply post_bind.
    eapply post_weaken; [apply (prefetch_frames_ok _ _ s4 Sz)|].
    intros _ s5 ev5 [[St Co] [P _]]; simpl.
    apply post_ret.
    destruct (steady_cap _ _ _ St eq_refl) as [c [Ec SM]].
    destruct St as [_ [Fc [Sz5 [En5 _]]]].
    refine (conj Sz5 (conj En5 (conj _ (conj _ _)))).
    + apply Co, consistent_empty; reflexivity.
    + intros L. simpl. apply (Rel L).
    + exists c0, c. repeat split; try assumption; try apply SM.
      unfold get_current_position in P; rewrite Ec in P; exact P.
  - apply post_ret.
    refine (conj eq_refl (conj eq_refl (conj _ (conj _ eq_refl)))).
    + apply consistent_empty; reflexivity.
    + intros L. simpl. apply (Rel L).
Qed.

(** C4.  [load_video] on a handler that holds another video is a hard
    reset.  With a capacity of at least 1 it returns normally; its first
    decoder call releases the handle it held; and whatever the cache held
    before, afterwards it is empty if the file did not open, and otherwise
    every entry is a frame of the newly opened capture.  A request for any
    index then returns the frame the new capture has there (or [None] if
    it has none), never a frame cached from the previous video. *)
Theorem load_video_is_hard_reset :
  forall (w : Opener) (path : String.string) (s : VideoHandler),
    1 <= cache_size s ->
    exists r,
      out_result (load_video w path s) = inl r /\
      (has_cap s = true ->
       exists evs', out_events (load_video w path s) = Release :: evs') /\
      match r with
      | None => frame_cache (out_state (load_video w path s)) = []
      | Some _ =>
          exists cB,
            opened_by w path cB /\
            (forall k f,
               In (k, f) (frame_cache (out_state (load_video w path s))) ->
               frame_at cB k = Some f) /\
            (forall n,
               out_result
                 (get_frame_at_position n (out_state (load_video w path s))) =
               inl (frame_at cB n))
      end.
Proof.
  intros w path s C.
  destruct (load_video_ok w path s C) as [r [R [Sz [_ [Co [Rel Hr]]]]]].
  exists r; refine (conj R (conj Rel _)).
  destruct r as [fc|]; [|exact Hr].
  destruct Hr as [c0 [c [Ob [Oc [Ec [SM _]]]]]].
  exists c0; refine (conj Ob (conj _ _)).
  - intros k f I. destruct (Co k f I) as [c' [Ec' F]].
    rewrite Ec in Ec'; inversion Ec'; subst c'.
    rewrite <- (frame_at_same_media _ _ k SM); exact F.
  - intros n.
    assert (C' : 1 <= cache_size (out_state (load_video w path s)))
      by (rewrite Sz; exact C).
    destruct (get_frame_at_position_ok n _ c Ec Co C') as [r' [R' [_ [Hr' _]]]].
    rewrite R', Hr'. f_equal. apply frame_at_same_media; exact SM.
Qed.

Lemma load_video_is_hard_reset_witness :
  cached 5 Fixtures.holding_a = Some [5] /\
  (exists evs',
     out_events (load_video (Fixtures.opener Fixtures.video_b)
                            Fixtures.path_b Fixtures.holding_a) =
     Release :: evs') /\
  out_result (get_frame_at_position 5 Fixtures.after_b) = inl (Some [105]).
Proof.
  split; [reflexivity|].
  assert (C : 1 <= cache_size Fixtures.holding_a) by (vm_compute; discriminate).
  destruct (load_video_is_hard_reset (Fixtures.opener Fixtures.video_b)
              Fixtures.path_b Fixtures.holding_a C) as [r [R [Rel Hr]]].
  split; [apply Rel; reflexivity|].
  vm_compute in R; inversion R; subst r.
  destruct Hr as [cB [Ob [_ Q]]].
  assert (E : cB = Fixtures.video_b).
  { destruct Ob as [[b E]|E]; simpl in E; [inversion E|]; auto. }
  unfold Fixtures.after_b; rewrite (Q 5), E; reflexivity.
Defined.

(** ** C1: the cursor after each call *)

Lemma ready_kept s s' : ready s -> kept s s' -> ready s'.
Proof.
  intros [[c [E O]] [H C]] K.
  destruct (kept_cap _ _ _ K E) as [c' [E' [O' _]]].
  split; [exists c'; split; [assumption | congruence]|].
  split; [apply K; exact H | rewrite (kept_size _ _ K); exact C].
Qed.

Lemma then_ret_state {A B} (m : M A) (b : B) s :
  out_state ((m ;; ret b) s) = out_state (m s).
Proof. unfold bind; destruct (out_result (m s)); reflexivity. Qed.

Lemma then_ret_result {A B} (m : M A) (b : B) s a :
  out_result (m s) = inl a -> out_result ((m ;; ret b) s) = inl b.
Proof. intros R; unfold bind; rewrite R; reflexivity. Qed.

Lemma call_follows c s :
  ready s ->
  cursor_follows (mkStep c s (call c s)) /\ ready (out_state (call c s)).
Proof.
  intros R; pose proof R as [[cp [E O]] [H C]].
  assert (P0 : get_current_position s = capture_get_pos cp)
    by (unfold get_current_position; rewrite E; reflexivity).
  unfold cursor_follows, position_after; simpl step_call; simpl step_out;
    simpl step_from.
  destruct c as [|n|n]; simpl call.
  - destruct (get_current_frame_ok s cp E H C) as [r [Rr [K [_ [P _]]]]].
    rewrite Rr, P, P0. split; [destruct r; reflexivity | eauto using ready_kept].
  - destruct (get_frame_at_position_ok n s cp E H C) as [r [Rr [K [_ [P _]]]]].
    rewrite Rr, P. split; [|eauto using ready_kept].
    destruct r; [reflexivity | apply get_pos_set_pos; exact O].
  - destruct (seek_ok n s cp E C) as [[] [Rr [K [P _]]]].
    rewrite (then_ret_result _ None s tt Rr), then_ret_state.
    split; [|eauto using ready_kept].
    rewrite P. apply get_pos_set_pos; exact O.
Qed.

Lemma run_calls_follow cs : forall s,
  ready s -> Forall cursor_follows (run_calls cs s).
Proof.
  induction cs as [|c cs IH]; intros s R; simpl; constructor.
  - apply call_follows; exact R.
  - apply IH. apply call_follows; exact R.
Qed.

Lemma load_video_ready w path s fc :
  1 <= cache_size s ->
  out_result (load_video w path s) = inl (Some fc) ->
  ready (out_state (load_video w path s)).
Proof.
  intros C R.
  destruct (load_video_ok w path s C) as [r [R' [Sz [_ [Co [_ Hr]]]]]].
  rewrite R in R'; inversion R'; subst r.
  destruct Hr as [c0 [c [_ [Oc [Ec [[O _] _]]]]]].
  split; [exists c; split; [assumption | congruence]|].
  split; [assumption | rewrite Sz; exact C].
Qed.

(** C1, as the specification words it, fails: a call that serves no frame
    can move the cursor away from the index after the last frame served.
    On a clip of six frames whose frame 4 cannot be decoded,
    [get_frame_at_position 0] serves frame 0 and leaves the cursor at 1;
    [get_frame_at_position 4] then serves nothing and leaves the cursor
    at 4.  (A request past the end of the clip does the same.) *)
Lemma cursor_after_unserved_request :
  ~ (forall (w : Opener) (path : String.string) (s0 : VideoHandler)
            (fc : Z) (cs : list Call),
       1 <= cache_size s0 ->
       out_result (load_video w path s0) = inl (Some fc) ->
       cursor_as_specified
         (get_current_position (out_state (load_video w path s0)))
         (run_calls cs (out_state (load_video w path s0)))).
Proof.
  intros H.
  specialize (H (Fixtures.opener Fixtures.damaged) String.EmptyString
                (init 5) 6 [CallAt 0; CallAt 4]).
  assert (C : 1 <= cache_size (init 5)) by (simpl; lia).
  specialize (H C eq_refl).
  vm_compute in H.
  destruct H as [_ [H _]]; discriminate H.
Qed.

(** C1, amended.  After a video has been loaded (capacity at least 1),
    in every sequence of [get_current_frame], [get_frame_at_position] and
    [seek] calls no call raises, and after each call the cursor is: one
    past the index of the frame the call served, whether the frame came
    from the cache or from the decoder; the target, after a [seek]; and
    after a call that served no frame, where a [get_current_frame] found it
    or the index a [get_frame_at_position] asked for. *)
Theorem cursor_follows_each_call :
  forall (w : Opener) (path : String.string) (s0 : VideoHandler)
         (fc : Z) (cs : list Call),
    1 <= cache_size s0 ->
    out_result (load_video w path s0) = inl (Some fc) ->
    Forall cursor_follows (run_calls cs (out_state (load_video w path s0))).
Proof.
  intros w path s0 fc cs C R.
  apply run_calls_follow. eapply load_video_ready; eassumption.
Qed.

Lemma cursor_follows_each_call_witness :
  Forall cursor_follows
    (run_calls [CallCurrent; CallAt 3; CallSeek 1; CallCurrent; CallAt 9;
                CallCurrent; CallAt 2]
       (out_state (load_video (Fixtures.opener (Fixtures.clip 4))
                              String.EmptyString (init 2)))).
Proof.
  apply (cursor_follows_each_call (Fixtures.opener (Fixtures.clip 4))
           String.EmptyString (init 2) 4).
  - simpl; lia.
  - reflexivity.
Defined.

(** ** The examples for C6 and C7 *)

Lemma loaded_consistent size c :
  1 <= size -> cache_consistent (Fixtures.loaded size c).
Proof.
  intros C. unfold Fixtures.loaded.
  destruct (load_video_ok (Fixtures.opener c) Fixtures.clip_path (init size) C)
    as [r [_ [_ [_ [Co _]]]]].
  exact Co.
Qed.

Lemma cache_hit_decoder_calls_witness :
  let s := Fixtures.loaded 10 (Fixtures.clip 8) in
  (out_result (get_current_frame s) = inl (Some [0]) /\
   out_events (get_current_frame s) = [GetPos; Read] /\
   get_current_position (out_state (get_current_frame s)) = 1) /\
  (out_result (get_frame_at_position 5 s) = inl (Some [5]) /\
   out_events (get_frame_at_position 5 s) = [SetPos 6] /\
   get_current_position (out_state (get_frame_at_position 5 s)) = 6).
Proof.
  intros s.
  assert (H : cache_consistent s) by (apply loaded_consistent; lia).
  destruct (cache_hit_decoder_calls s (Fixtures.clip 8) eq_refl H) as [A B].
  split.
  - exact (A [0] eq_refl).
  - exact (B 5 [5] eq_refl).
Defined.


(** ** C3: which entry an insert evicts *)

Lemma sorted_by_age_NoDup h l :
  StronglySorted (fun a b => (age b h < age a h)%nat) l -> NoDup l.
Proof.
  induction 1 as [|a l S IH F]; constructor; [|assumption].
  intros I. rewrite Forall_forall in F. specialize (F a I). lia.
Qed.

Lemma sorted_by_age_touch h l k :
  StronglySorted (fun a b => (age b h < age a h)%nat) l ->
  ~ In k l ->
  StronglySorted (fun a b => (age b (k :: h) < age a (k :: h))%nat) (l ++ [k]).
Proof.
  induction 1 as [|a l S IH F]; intros N; simpl.
  - repeat constructor.
  - constructor; [apply IH; intros I; apply N; right; exact I|].
    assert (Na : a <> k) by (intros ->; apply N; left; reflexivity).
    apply Forall_app; split.
    + rewrite Forall_forall in *. intros b I.
      assert (Nb : b <> k) by (intros ->; apply N; right; exact I).
      specialize (F b I).
      destruct (Z.eqb_spec k b); [congruence|].
      destruct (Z.eqb_spec k a); [congruence|]. lia.
    + constructor; [|constructor].
      rewrite Z.eqb_refl. destruct (Z.eqb_spec k a); [congruence | lia].
Qed.

Lemma sorted_keys_remove (R : Z -> Z -> Prop) k (d : od) :
  StronglySorted R (OrderedDict.keys d) ->
  StronglySorted R (OrderedDict.keys (OrderedDict.remove k d)).
Proof.
  induction d as [|[k' v'] d IH]; simpl; [auto|].
  intros S; apply StronglySorted_inv in S; destruct S as [S F].
  destruct (k' =? k); [assumption|].
  simpl; constructor; [auto|].
  rewrite Forall_forall in *; intros x I.
  apply F. eapply OrderedDictFacts.keys_remove_incl; eassumption.
Qed.

Lemma keys_app (d d' : od) :
  OrderedDict.keys (d ++ d') = OrderedDict.keys d ++ OrderedDict.keys d'.
Proof. apply map_app. Qed.

Lemma contains_false k (d : od) :
  OrderedDict.contains k d = false -> OrderedDict.lookup k d = None.
Proof. unfold OrderedDict.contains; destruct (OrderedDict.lookup k d); [discriminate | auto]. Qed.

(** Appending a freshly touched index keeps the order. *)
Lemma recency_ordered_touch d h k f :
  recency_ordered d h ->
  OrderedDict.lookup k d = None ->
  recency_ordered (d ++ [(k, f)]) (k :: h).
Proof.
  intros [S I] N. apply OrderedDictFacts.lookup_None_keys in N.
  split.
  - rewrite keys_app; simpl. apply sorted_by_age_touch; assumption.
  - intros x Ix. rewrite keys_app in Ix; simpl in Ix.
    apply in_app_or in Ix. destruct Ix as [Ix|[<-|[]]]; simpl; auto.
Qed.

Lemma recency_ordered_remove d h k :
  recency_ordered d h -> recency_ordered (OrderedDict.remove k d) h.
Proof.
  intros [S I]; split.
  - apply sorted_keys_remove; exact S.
  - intros x Ix; apply I. eapply OrderedDictFacts.keys_remove_incl; eassumption.
Qed.

Lemma recency_ordered_tail e d h :
  recency_ordered (e :: d) h -> recency_ordered d h.
Proof.
  intros [S I]; split.
  - simpl in S; apply StronglySorted_inv in S; tauto.
  - intros x Ix; apply I; right; exact Ix.
Qed.

Lemma lookup_tail k e (d : od) :
  OrderedDict.lookup k (e :: d) = None -> OrderedDict.lookup k d = None.
Proof. destruct e as [k' v']; simpl; destruct (k' =? k); [discriminate | auto]. Qed.

(** One operation keeps the cache in order of last touch, provided an
    insert brings a new index. *)
Lemma cache_op_recency_ordered op s h :
  recency_ordered (frame_cache s) h ->
  match op with
  | CachePut k _ => OrderedDict.contains k (frame_cache s) = false
  | _ => True
  end ->
  recency_ordered (frame_cache (out_state (cache_op op s))) (touch op s h).
Proof.
  intros Ord New. destruct op as [k|k f|]; unfold cache_op, touch.
  - rewrite then_ret_state. unfold cached.
    destruct (get_from_cache_cases k s) as [[-> D]|[f [En [Hit ->]]]]; simpl.
    + destruct D as [->| ->]; [|destruct (cache_enabled s)]; exact Ord.
    + rewrite En, Hit.
      pose proof (sorted_by_age_NoDup _ _ (proj1 Ord)) as ND.
      pose proof (OrderedDictFacts.lookup_remove_same k _ ND) as Gone.
      rewrite (OrderedDictFacts.setitem_fresh _ _ _ Gone).
      apply recency_ordered_touch; [apply recency_ordered_remove; exact Ord | exact Gone].
  - apply contains_false in New.
    destruct (add_to_cache_cases k f s)
      as [[-> D]|[[En [_ ->]]|[[e [d [En [_ [D ->]]]]]|[En [_ [D ->]]]]]]; simpl.
    + rewrite D; exact Ord.
    + rewrite En, (OrderedDictFacts.setitem_fresh _ _ _ New).
      apply recency_ordered_touch; assumption.
    + rewrite D in New, Ord. apply lookup_tail in New.
      rewrite En, (OrderedDictFacts.setitem_fresh _ _ _ New).
      apply recency_ordered_touch; [eapply recency_ordered_tail; exact Ord | exact New].
    + rewrite D; split; [constructor | intros x []].
  - simpl; split; [constructor | intros x []].
Qed.

Lemma cache_op_config op s :
  cache_enabled (out_state (cache_op op s)) = cache_enabled s /\
  cache_size (out_state (cache_op op s)) = cache_size s.
Proof.
  destruct op as [k|k f|]; unfold cache_op.
  - rewrite then_ret_state.
    destruct (get_from_cache_cases k s) as [[-> _]|[f [_ [_ ->]]]]; auto.
  - destruct (add_to_cache_cases k f s)
      as [[-> _]|[[_ [_ ->]]|[[e [d [_ [_ [_ ->]]]]]|[_ [_ [_ ->]]]]]]; auto.
  - auto.
Qed.

Lemma cache_play_ordered ops : forall s h,
  recency_ordered (frame_cache s) h ->
  puts_are_new ops s ->
  recency_ordered (frame_cache (fst (cache_play ops s h)))
                  (snd (cache_play ops s h)) /\
  cache_enabled (fst (cache_play ops s h)) = cache_enabled s /\
  cache_size (fst (cache_play ops s h)) = cache_size s.
Proof.
  induction ops as [|op ops IH]; intros s h Ord News; simpl.
  - auto.
  - destruct News as [New Rest].
    destruct (cache_op_config op s) as [En Sz].
    destruct (IH _ _ (cache_op_recency_ordered op s h Ord New) Rest)
      as [O [E S]].
    rewrite <- En, <- Sz; auto.
Qed.

(** C3.  The eviction policy is strict least-recently-used, with recency
    updated by a lookup that hits and by an insert.  The inserts are those
    the handler makes, of an index that is not in the cache:
    [get_current_frame] inserts after its lookup missed, and
    [_prefetch_frames] passes over the indices that are cached.  From an
    empty, enabled cache with capacity at least 1 and along any sequence of
    lookups, clears and such inserts, an insert of a new index at capacity
    drops exactly the head entry, appends the new one, and every entry that
    stays was touched more recently than the one dropped.  With capacity 3
    and the accesses 1, 2, 3, 1, inserting 4 evicts index 2. *)
Theorem eviction_takes_least_recently_touched :
  forall (ops : list CacheOp) (s0 : VideoHandler) (k : Z) (f : Frame),
    frame_cache s0 = [] ->
    cache_enabled s0 = true ->
    1 <= cache_size s0 ->
    puts_are_new ops s0 ->
    OrderedDict.contains k (frame_cache (fst (cache_play ops s0 []))) = false ->
    cache_size s0 <= cache_len (fst (cache_play ops s0 [])) ->
    evicts_least_recently_touched
      (fst (cache_play ops s0 [])) (snd (cache_play ops s0 [])) k f.
Proof.
  intros ops s0 k f Emp En C News New Full.
  assert (Ord0 : recency_ordered (frame_cache s0) []).
  { rewrite Emp; split; [constructor | intros x []]. }
  destruct (cache_play_ordered ops s0 [] Ord0 News) as [[S I] [En' Sz]].
  set (s := fst (cache_play ops s0 [])) in *.
  set (h := snd (cache_play ops s0 [])) in *.
  apply contains_false in New.
  destruct (frame_cache s) as [|[v fv] rest] eqn:D.
  { unfold cache_len, OrderedDict.len in Full; rewrite D in Full;
      simpl in Full; lia. }
  exists v, fv, rest.
  simpl in S; apply StronglySorted_inv in S; destruct S as [_ F].
  rewrite Forall_forall in F.
  refine (conj D (conj _ (conj (I v (or_introl eq_refl)) _))).
  - rewrite <- (OrderedDictFacts.setitem_fresh k f rest).
    + apply add_to_cache_full with (e := (v, fv)); [congruence | | exact D].
      unfold cache_len in Full; lia.
    + eapply lookup_tail; exact New.
  - intros x Ix; split; [apply I; right; exact Ix | apply F; exact Ix].
Qed.

Lemma eviction_takes_least_recently_touched_witness :
  let ops := [CachePut 1 [10]; CachePut 2 [20]; CachePut 3 [30]; CacheGet 1] in
  let s := fst (cache_play ops (init 3) []) in
  OrderedDict.keys (frame_cache s) = [2; 3; 1] /\
  OrderedDict.keys (frame_cache (out_state (_add_to_cache 4 [40] s))) = [3; 1; 4] /\
  evicts_least_recently_touched s (snd (cache_play ops (init 3) [])) 4 [40].
Proof.
  intros ops s.
  split; [reflexivity | split; [reflexivity|]].
  apply (eviction_takes_least_recently_touched ops (init 3) 4 [40]).
  - reflexivity.
  - reflexivity.
  - simpl; lia.
  - simpl; auto 10.
  - reflexivity.
  - vm_compute; discriminate.
Defined.

(** * Part 4: further properties of the handler *)

(** ** Cache transparency *)

Lemma same_media_sym c c' : same_media c c' -> same_media c' c.
Proof. unfold same_media; intuition congruence. Qed.

Lemma request_decoder_frame c0 r s :
  ready s -> holds c0 s -> settings_valid r ->
  decoder_frame c0 (mkServed r s (request r s)) /\
  ready (out_state (request r s)) /\
  holds c0 (out_state (request r s)).
Proof.
  intros R [c [E SM]] V; pose proof R as [[c' [E' O]] [H C]].
  rewrite E in E'; inversion E'; subst c'.
  assert (P0 : get_current_position s = capture_get_pos c)
    by (unfold get_current_position; rewrite E; reflexivity).
  assert (Hold : forall s', kept s s' -> holds c0 s').
  { intros s' K. destruct (kept_cap _ _ _ K E) as [c1 [E1 SM1]].
    exists c1; split; [assumption | eauto using same_media_trans]. }
  unfold decoder_frame; simpl sv_request; simpl sv_out; simpl sv_from.
  destruct r as [[|n|n]| |size enabled]; simpl request; simpl call.
  - destruct (get_current_frame_ok s c E H C) as [r [Rr [K [Hr _]]]].
    rewrite Rr, Hr, P0, (frame_at_same_media _ _ _ SM).
    eauto using ready_kept.
  - destruct (get_frame_at_position_ok n s c E H C) as [r [Rr [K [Hr _]]]].
    rewrite Rr, Hr, (frame_at_same_media _ _ _ SM).
    eauto using ready_kept.
  - destruct (seek_ok n s c E C) as [[] [Rr [K _]]].
    rewrite (then_ret_result _ None s tt Rr), then_ret_state.
    eauto using ready_kept.
  - simpl. split; [reflexivity|]. split.
    + split; [exists c; auto|]. split; [intros k f []|exact C].
    + exists c; auto.
  - simpl. split; [reflexivity|]. split.
    + split; [exists c; auto|]. split; [exact H | exact V].
    + exists c; auto.
Qed.

Lemma run_requests_decoder_frame c0 rs : forall s,
  ready s -> holds c0 s -> Forall settings_valid rs ->
  Forall (decoder_frame c0) (run_requests rs s).
Proof.
  induction rs as [|r rs IH]; intros s R Hd V; simpl; constructor;
    inversion V as [|? ? Vr Vrs]; subst.
  - apply request_decoder_frame; assumption.
  - destruct (request_decoder_frame c0 r s R Hd Vr) as [_ [R' Hd']].
    apply IH; assumption.
Qed.

Lemma load_video_holds w path s fc :
  1 <= cache_size s ->
  out_result (load_video w path s) = inl (Some fc) ->
  exists c0, opened_by w path c0 /\ cap_opened c0 = true /\
             cap_frame_count c0 = fc /\
             holds c0 (out_state (load_video w path s)).
Proof.
  intros C R.
  destruct (load_video_ok w path s C) as [r [R' [_ [_ [_ [_ Hr]]]]]].
  rewrite R in R'; inversion R'; subst r.
  destruct Hr as [c0 [c [Ob [Oc [Ec [SM [_ [_ Fc]]]]]]]].
  exists c0; repeat split; auto. exists c; auto.
Qed.

(** X1.  The cache is transparent.  After a video has been loaded, along
    any sequence of frame calls, cache clears and settings changes that
    keep the capacity at 1 or more, [get_frame_at_position n] returns the
    frame the opened capture has at [n] and [get_current_frame] the frame
    it has at the cursor -- [None] exactly where the capture has no
    readable frame -- whatever the cache holds, whether it is enabled, and
    whatever was asked before. *)
Theorem served_frames_are_decoder_frames :
  forall (w : Opener) (path : String.string) (s0 : VideoHandler)
         (fc : Z) (rs : list Request),
    1 <= cache_size s0 ->
    out_result (load_video w path s0) = inl (Some fc) ->
    Forall settings_valid rs ->
    exists c0,
      opened_by w path c0 /\
      Forall (decoder_frame c0)
             (run_requests rs (out_state (load_video w path s0))).
Proof.
  intros w path s0 fc rs C R V.
  destruct (load_video_holds w path s0 fc C R) as [c0 [Ob [_ [_ Hd]]]].
  exists c0; split; [exact Ob|].
  apply run_requests_decoder_frame; auto.
  eapply load_video_ready; eassumption.
Qed.

Lemma served_frames_are_decoder_frames_witness :
  exists c0,
    opened_by (Fixtures.opener Fixtures.damaged) Fixtures.clip_path c0 /\
    Forall (decoder_frame c0)
      (run_requests
         [ReqFrame (CallAt 3); ReqSettings 1 false; ReqFrame (CallAt 3);
          ReqFrame CallCurrent; ReqClearCache; ReqSettings 2 true;
          ReqFrame (CallAt 4); ReqFrame (CallSeek 0); ReqFrame CallCurrent]
         (out_state (load_video (Fixtures.opener Fixtures.damaged)
                                Fixtures.clip_path (init 3)))).
Proof.
  apply (served_frames_are_decoder_frames (Fixtures.opener Fixtures.damaged)
           Fixtures.clip_path (init 3) 6).
  - simpl; lia.
  - reflexivity.
  - repeat constructor; simpl; lia.
Defined.

(** ** The invariants of the cache under the frame operations *)

Lemma In_keys_setitem x k v (d : od) :
  In x (OrderedDict.keys (OrderedDict.setitem k v d)) ->
  x = k \/ In x (OrderedDict.keys d).
Proof.
  unfold OrderedDict.keys; rewrite !in_map_iff.
  intros [e [E I]]. destruct (OrderedDictFacts.In_setitem _ _ _ _ I) as [->|I'].
  - left; subst; reflexivity.
  - right; exists e; auto.
Qed.

Lemma NoDup_keys_setitem k v (d : od) :
  NoDup (OrderedDict.keys d) ->
  NoDup (OrderedDict.keys (OrderedDict.setitem k v d)).
Proof.
  induction d as [|[k' v'] d IH]; simpl; intros ND.
  - repeat constructor; intros [].
  - inversion ND as [|? ? NI ND']; subst.
    destruct (Z.eqb_spec k' k) as [->|N]; simpl.
    + constructor; assumption.
    + constructor; [|auto].
      intros I; destruct (In_keys_setitem _ _ _ _ I); [congruence | contradiction].
Qed.

Lemma NoDup_keys_remove k (d : od) :
  NoDup (OrderedDict.keys d) ->
  NoDup (OrderedDict.keys (OrderedDict.remove k d)).
Proof.
  induction d as [|[k' v'] d IH]; simpl; [auto|].
  intros ND; inversion ND as [|? ? NI ND']; subst.
  destruct (k' =? k); [assumption|].
  simpl; constructor; [|auto].
  intros I; apply NI; eapply OrderedDictFacts.keys_remove_incl; eassumption.
Qed.

Lemma orderly_refl s : orderly s s.
Proof. split; auto. Qed.

Lemma orderly_trans s1 s2 s3 : orderly s1 s2 -> orderly s2 s3 -> orderly s1 s3.
Proof. intros [A B] [A' B']; split; auto. Qed.

Lemma orderly_set_cap c s : orderly s (set_cap c s).
Proof. split; auto. Qed.

Lemma post_and {A} (m : M A) s (Q Q' : A -> VideoHandler -> list Event -> Prop) :
  post m s Q -> post m s Q' ->
  post m s (fun a s' evs => Q a s' evs /\ Q' a s' evs).
Proof.
  intros [a [R H]] [a' [R' H']]. rewrite R in R'; inversion R'; subst a'.
  exists a; auto.
Qed.

Lemma post_add_orderly k f s :
  1 <= cache_size s ->
  post (_add_to_cache k f) s
       (fun _ s' _ => orderly s s' /\ cache_size s' = cache_size s).
Proof.
  intros C; exists tt.
  unfold orderly, one_entry_per_index, within_capacity, cache_len,
    OrderedDict.len.
  destruct (add_to_cache_cases k f s)
    as [[-> _]|[[_ [R ->]]|[[e [d [_ [_ [D ->]]]]]|[_ [Z0 _]]]]]; simpl.
  - auto.
  - unfold OrderedDict.len in R.
    pose proof (OrderedDictFacts.length_setitem_le k f (frame_cache s)).
    split; [reflexivity|]. split; [|reflexivity].
    split; [apply NoDup_keys_setitem | lia].
  - pose proof (OrderedDictFacts.length_setitem_le k f d).
    rewrite D; simpl.
    split; [reflexivity|]. split; [|reflexivity]. split.
    + intros ND; inversion ND; subst. apply NoDup_keys_setitem; assumption.
    + lia.
  - lia.
Qed.

Lemma post_get_orderly k s :
  post (_get_from_cache k) s (fun _ s' _ => orderly s s').
Proof.
  unfold post, orderly, one_entry_per_index, within_capacity, cache_len,
    OrderedDict.len.
  destruct (get_from_cache_cases k s) as [[-> D]|[f [En [Hit ->]]]]; simpl.
  - exists None; auto.
  - exists (Some f). split; [reflexivity|].
    pose proof (OrderedDictFacts.length_remove_hit _ _ _ Hit).
    pose proof (OrderedDictFacts.length_setitem_le k f
                  (OrderedDict.remove k (frame_cache s))).
    split; [|lia].
    intros ND. apply NoDup_keys_setitem, NoDup_keys_remove; exact ND.
Qed.

Lemma prefetch_frame_orderly k s c :
  cap s = Some c -> 1 <= cache_size s ->
  post (prefetch_frame k) s (fun _ s' _ => orderly s s').
Proof.
  intros E C. unfold prefetch_frame.
  apply post_bind, post_gets.
  destruct (OrderedDict.contains k (frame_cache s)).
  { apply post_ret, orderly_refl. }
  apply post_bind, post_cap_set_pos with (c := c); [assumption|].
  apply post_bind, post_cap_read with (c := capture_set_pos k c); [reflexivity|].
  intros r c' R.
  set (s1 := set_cap (Some c') (set_cap (Some (capture_set_pos k c)) s)).
  assert (O1 : orderly s s1) by (split; auto).
  destruct r as [f|]; [|apply post_ret; exact O1].
  eapply post_weaken; [apply (post_add_orderly k (copy f) s1 C)|cbv beta].
  intros u s' evs [O _]. exact (orderly_trans _ _ _ O1 O).
Qed.

Lemma for_each_prefetch_orderly ks : forall s c,
  cap s = Some c -> 1 <= cache_size s ->
  post (for_each ks prefetch_frame) s (fun _ s' _ => orderly s s').
Proof.
  induction ks as [|k ks IH]; intros s c E C; simpl.
  - apply post_ret, orderly_refl.
  - apply post_bind.
    eapply post_weaken;
      [apply (post_and _ _ _ _ (prefetch_frame_ok k s c E C)
                                (prefetch_frame_orderly k s c E C))|cbv beta].
    intros u s1 ev1 [[K1 _] O1]; simpl.
    destruct (kept_cap _ _ _ K1 E) as [c1 [E1 _]].
    assert (Sz : 1 <= cache_size s1) by (rewrite (kept_size _ _ K1); exact C).
    eapply post_weaken; [eapply IH; eassumption|cbv beta].
    intros u' s2 ev2 O2; eapply orderly_trans; eassumption.
Qed.

Lemma prefetch_frames_orderly a b s :
  1 <= cache_size s ->
  post (_prefetch_frames a b) s (fun _ s' _ => orderly s s').
Proof.
  intros C. unfold _prefetch_frames.
  apply post_bind, post_emit.
  apply post_bind, post_gets.
  apply post_bind, post_gets.
  destruct (negb (cache_enabled s) || negb (has_cap s)) eqn:G.
  { apply post_ret, orderly_refl. }
  apply orb_false_elim in G; destruct G as [_ G].
  unfold has_cap in G. destruct (cap s) as [c|] eqn:E; [|discriminate].
  apply post_bind, post_cap_get_pos with (c := c); [assumption|].
  apply post_bind, post_gets.
  apply post_bind.
  eapply post_weaken;
    [apply (post_and _ _ _ _ (for_each_prefetch_ok _ s c E C)
                              (for_each_prefetch_orderly _ s c E C))|cbv beta].
  intros u s1 ev1 [[K1 _] O1]; simpl.
  destruct (kept_cap _ _ _ K1 E) as [c1 [E1 _]].
  apply post_cap_set_pos with (c := c1); [assumption|].
  eapply orderly_trans; [eassumption | apply orderly_set_cap].
Qed.

Lemma get_current_frame_orderly s c :
  cap s = Some c -> 1 <= cache_size s ->
  post get_current_frame s (fun _ s' _ => orderly s s').
Proof.
  intros E C. unfold get_current_frame.
  apply post_bind, post_gets.
  unfold has_cap at 1; rewrite E; simpl negb; cbv iota.
  apply post_bind, post_cap_get_pos with (c := c); [assumption|].
  apply post_bind.
  eapply post_weaken;
    [apply (post_and _ _ _ _ (post_get_from_cache (capture_get_pos c) s)
                              (post_get_orderly (capture_get_pos c) s))|cbv beta].
  intros r0 s1 ev1 [[K1 [E1 _]] O1]; simpl.
  rewrite E in E1.
  assert (Sz1 : 1 <= cache_size s1) by (rewrite (kept_size _ _ K1); exact C).
  destruct r0 as [f|].
  - apply post_bind, post_cap_read with (c := c); [assumption|].
    intros r c' R. apply post_ret.
    eapply orderly_trans; [eassumption | apply orderly_set_cap].
  - apply post_bind, post_cap_read with (c := c); [assumption|].
    intros r c' R.
    set (s2 := set_cap (Some c') s1).
    assert (O2 : orderly s s2)
      by (eapply orderly_trans; [eassumption | apply orderly_set_cap]).
    destruct r as [f|]; [|apply post_ret; exact O2].
    apply post_bind.
    eapply post_weaken; [apply (post_add_orderly _ (copy f) s2 Sz1)|cbv beta].
    intros u s3 ev3 [O3 Sz3]; simpl.
    apply post_bind, post_gets.
    assert (O13 : orderly s s3) by (eapply orderly_trans; eassumption).
    assert (C3 : 1 <= cache_size s3) by (rewrite Sz3; exact Sz1).
    apply post_bind.
    destruct (Z.min (capture_get_pos c + 10) (frame_count s3) >? capture_get_pos c + 1).
    + eapply post_weaken; [apply (prefetch_frames_orderly _ _ s3 C3)|cbv beta].
      intros u' s4 ev4 O4; simpl. apply post_ret.
      eapply orderly_trans; eassumption.
    + apply post_ret, post_ret; exact O13.
Qed.

Lemma get_frame_at_position_orderly n s c :
  cap s = Some c -> cache_consistent s -> 1 <= cache_size s ->
  post (get_frame_at_position n) s (fun _ s' _ => orderly s s').
Proof.
  intros E H C. unfold get_frame_at_position.
  apply post_bind, post_gets.
  unfold has_cap at 1; rewrite E; simpl negb; cbv iota.
  apply post_bind.
  eapply post_weaken;
    [apply (post_and _ _ _ _ (post_get_from_cache n s) (post_get_orderly n s))|cbv beta].
  intros r0 s1 ev1 [[K1 [E1 [_ Hr]]] O1]; simpl.
  rewrite E in E1.
  destruct r0 as [f|].
  - apply post_bind, post_cap_set_pos with (c := c); [assumption|].
    apply post_ret.
    eapply orderly_trans; [eassumption | apply orderly_set_cap].
  - destruct Hr as [-> _].
    apply post_bind, post_cap_set_pos with (c := c); [assumption|].
    set (c2 := capture_set_pos n c).
    set (s2 := set_cap (Some c2) s).
    assert (K2 : kept s s2)
      by exact (kept_set_cap s c c2 E (same_media_set_pos n c)).
    assert (H2 : cache_consistent s2) by (apply K2; exact H).
    assert (Sz2 : 1 <= cache_size s2) by exact C.
    apply post_bind.
    eapply post_weaken;
      [apply (post_and _ _ _ _ (get_current_frame_ok s2 c2 eq_refl H2 Sz2)
                                (get_current_frame_orderly s2 c2 eq_refl Sz2))|cbv beta].
    intros r s3 ev3 [[K3 _] O3]; simpl.
    assert (Sz3 : 1 <= cache_size s3) by (rewrite (kept_size _ _ K3); exact C).
    apply post_bind, post_gets.
    apply post_bind.
    eapply post_weaken; [apply (prefetch_frames_orderly _ _ s3 Sz3)|cbv beta].
    intros u s4 ev4 O4; simpl. apply post_ret.
    eapply orderly_trans; [|eassumption].
    eapply orderly_trans; [apply (orderly_set_cap (Some c2) s) | exact O3].
Qed.

Lemma seek_orderly n s c :
  cap s = Some c -> 1 <= cache_size s ->
  post (seek n) s (fun _ s' _ => orderly s s').
Proof.
  intros E C. unfold seek.
  apply post_bind, post_gets.
  unfold has_cap at 1; rewrite E; simpl negb; cbv iota.
  apply post_bind, post_cap_set_pos with (c := c); [assumption|].
  set (s2 := set_cap (Some (capture_set_pos n c)) s).
  apply post_bind, post_gets.
  assert (Sz2 : 1 <= cache_size s2) by exact C.
  eapply post_weaken; [apply (prefetch_frames_orderly _ _ s2 Sz2)|cbv beta].
  intros u s3 ev3 O3; simpl.
  exact (orderly_trans _ _ _
           (orderly_set_cap (Some (capture_set_pos n c)) s) O3).
Qed.

Lemma load_video_tidy w path s :
  1 <= cache_size s ->
  post (load_video w path) s
       (fun _ s' _ => one_entry_per_index s' /\ within_capacity s').
Proof.
  intros C. unfold load_video.
  apply post_bind, post_gets.
  apply post_bind.
  apply post_weaken with (Q := fun _ s' (_ : list Event) => s' = s).
  { destruct (has_cap s); [apply post_emit | apply post_ret]; auto. }
  intros u0 s0' ev0 E0; rewrite E0; clear E0.
  apply post_bind, post_modify.
  apply post_bind, post_modify.
  set (s1 := set_cap None (set_frame_cache OrderedDict.empty s)).
  apply post_bind.
  eapply post_weaken; [apply try_backends_ok|cbv beta].
  intros u2 s2 ev2 D; simpl.
  apply post_bind, post_gets.
  apply post_bind.
  apply post_weaken with
    (Q := fun _ s' (_ : list Event) => exists c0, s' = set_cap (Some c0) s1).
  { destruct D as [E2|[b [c0 [Ob [Oc E2]]]]]; rewrite E2; simpl.
    - apply post_bind, post_emit. apply post_modify. eauto.
    - apply post_ret. eauto. }
  intros u3 s3 ev3 [c0 E3]; rewrite E3; clear E3.
  apply post_bind, post_gets. simpl cap. cbv iota.
  assert (T : forall s', frame_cache s' = [] -> cache_size s' = cache_size s ->
                         one_entry_per_index s' /\ within_capacity s').
  { intros s' Em Sz.
    unfold one_entry_per_index, within_capacity, cache_len, OrderedDict.len.
    rewrite Em, Sz; simpl. split; [constructor | lia]. }
  destruct (cap_opened c0) eqn:Oc; simpl negb; cbv iota.
  - apply post_bind, post_modify.
    set (s4 := set_session path (cap_frame_count c0) (set_cap (Some c0) s1)).
    apply post_bind, post_gets.
    assert (Sz : 1 <= cache_size s4) by exact C.
    apply post_bind.
    eapply post_weaken; [apply (prefetch_frames_orderly _ _ s4 Sz)|cbv beta].
    intros u5 s5 ev5 [N B]. apply post_ret.
    destruct (T s4 eq_refl eq_refl); auto.
  - apply post_ret. apply T; reflexivity.
Qed.

Lemma request_orderly r s :
  ready s -> settings_valid r ->
  (one_entry_per_index s -> one_entry_per_index (out_state (request r s))) /\
  (settings_fixed r ->
   within_capacity s -> within_capacity (out_state (request r s))).
Proof.
  intros [[c [E O]] [H C]] V.
  destruct r as [[|n|n]| |size enabled]; simpl request; simpl call.
  - destruct (get_current_frame_orderly s c E C) as [r [_ [A B]]]; auto.
  - destruct (get_frame_at_position_orderly n s c E H C) as [r [_ [A B]]]; auto.
  - rewrite then_ret_state.
    destruct (seek_orderly n s c E C) as [r [_ [A B]]]; auto.
  - split; intros; simpl.
    + constructor.
    + unfold within_capacity, cache_len, OrderedDict.len; simpl; lia.
  - split; [auto | intros []].
Qed.

Lemma request_ready r s :
  ready s -> settings_valid r -> ready (out_state (request r s)).
Proof.
  intros R V; pose proof R as [[c [E _]] _].
  assert (Hd : holds c s) by (exists c; auto using same_media_refl).
  apply (request_decoder_frame c r s R Hd V).
Qed.

Lemma settings_fixed_valid r : settings_fixed r -> settings_valid r.
Proof. destruct r; simpl; tauto. Qed.

Lemma run_requests_one_entry rs : forall s,
  ready s -> Forall settings_valid rs -> one_entry_per_index s ->
  Forall (fun sv => one_entry_per_index (out_state (sv_out sv)))
         (run_requests rs s).
Proof.
  induction rs as [|r rs IH]; intros s R V N; simpl; constructor;
    inversion V as [|? ? Vr Vrs]; subst; simpl.
  - apply (request_orderly r s R Vr); exact N.
  - apply IH; [apply request_ready; assumption | assumption |].
    apply (request_orderly r s R Vr); exact N.
Qed.

Lemma run_requests_within_capacity rs : forall s,
  ready s -> Forall settings_fixed rs -> within_capacity s ->
  Forall (fun sv => within_capacity (out_state (sv_out sv)))
         (run_requests rs s).
Proof.
  induction rs as [|r rs IH]; intros s R V B; simpl; constructor;
    inversion V as [|? ? Vr Vrs]; subst; simpl.
  - apply (request_orderly r s R (settings_fixed_valid r Vr)); assumption.
  - apply IH; [apply request_ready; auto using settings_fixed_valid | assumption |].
    apply (request_orderly r s R (settings_fixed_valid r Vr)); assumption.
Qed.

(** X2.  The cache never holds two entries for one index.  After a video
    has been loaded, the cache has at most one entry per frame index, and
    that stays so after every request of any sequence of frame calls,
    cache clears and settings changes that keep the capacity at 1 or
    more. *)
Theorem cache_has_one_entry_per_index :
  forall (w : Opener) (path : String.string) (s0 : VideoHandler)
         (fc : Z) (rs : list Request),
    1 <= cache_size s0 ->
    out_result (load_video w path s0) = inl (Some fc) ->
    Forall settings_valid rs ->
    one_entry_per_index (out_state (load_video w path s0)) /\
    Forall (fun sv => one_entry_per_index (out_state (sv_out sv)))
           (run_requests rs (out_state (load_video w path s0))).
Proof.
  intros w path s0 fc rs C R V.
  destruct (load_video_tidy w path s0 C) as [r [_ [N _]]].
  split; [exact N|].
  apply run_requests_one_entry; auto.
  eapply load_video_ready; eassumption.
Qed.

Lemma cache_has_one_entry_per_index_witness :
  let s := out_state (load_video (Fixtures.opener (Fixtures.clip 12))
                                 Fixtures.clip_path (init 4)) in
  one_entry_per_index s /\
  Forall (fun sv => one_entry_per_index (out_state (sv_out sv)))
         (run_requests
            [ReqFrame (CallAt 9); ReqFrame CallCurrent; ReqSettings 2 true;
             ReqFrame (CallSeek 3); ReqFrame (CallAt 9); ReqClearCache;
             ReqFrame CallCurrent] s).
Proof.
  apply (cache_has_one_entry_per_index (Fixtures.opener (Fixtures.clip 12))
           Fixtures.clip_path (init 4) 12).
  - simpl; lia.
  - reflexivity.
  - repeat constructor; simpl; lia.
Defined.

(** X3.  With the settings left alone the cache stays within its
    capacity.  After a video has been loaded with a capacity of 1 or more,
    the size [get_cache_info] reports is at most the [max_size] it
    reports, right after the load and after every request of any sequence
    of frame calls and cache clears. *)
Theorem cache_info_size_within_max_size :
  forall (w : Opener) (path : String.string) (s0 : VideoHandler)
         (fc : Z) (rs : list Request),
    1 <= cache_size s0 ->
    out_result (load_video w path s0) = inl (Some fc) ->
    Forall settings_fixed rs ->
    reports_within_capacity (out_state (load_video w path s0)) /\
    Forall (fun sv => reports_within_capacity (out_state (sv_out sv)))
           (run_requests rs (out_state (load_video w path s0))).
Proof.
  intros w path s0 fc rs C R V.
  destruct (load_video_tidy w path s0 C) as [r [_ [_ B]]].
  split; [exact B|].
  apply run_requests_within_capacity; auto.
  eapply load_video_ready; eassumption.
Qed.

Lemma cache_info_size_within_max_size_witness :
  let s := out_state (load_video (Fixtures.opener (Fixtures.clip 40))
                                 Fixtures.clip_path (init 5)) in
  reports_within_capacity s /\
  Forall (fun sv => reports_within_capacity (out_state (sv_out sv)))
         (run_requests
            [ReqFrame (CallSeek 20); ReqFrame (CallAt 35); ReqClearCache;
             ReqFrame CallCurrent; ReqFrame CallCurrent] s).
Proof.
  apply (cache_info_size_within_max_size (Fixtures.opener (Fixtures.clip 40))
           Fixtures.clip_path (init 5) 40).
  - simpl; lia.
  - reflexivity.
  - repeat constructor.
Defined.

(** ** What a prefetch leaves in the cache *)

Lemma In_range a b k : In k (range a b) <-> a <= k < b.
Proof.
  unfold range; rewrite in_map_iff; split.
  - intros [i [<- I]]; apply in_seq in I; lia.
  - intros B; exists (Z.to_nat (k - a)); split; [lia|].
    apply in_seq; lia.
Qed.

Lemma lookup_setitem_other j k f (d : od) :
  j <> k ->
  OrderedDict.lookup j (OrderedDict.setitem k f d) = OrderedDict.lookup j d.
Proof.
  intros N; induction d as [|[k' v'] d IH]; simpl.
  - destruct (Z.eqb_spec k j); [congruence | reflexivity].
  - destruct (Z.eqb_spec k' k) as [->|N']; simpl.
    + destruct (Z.eqb_spec k j); [congruence | reflexivity].
    + destruct (Z.eqb_spec k' j); [reflexivity | exact IH].
Qed.

Lemma kept_enabled s s' : kept s s' -> cache_enabled s' = cache_enabled s.
Proof. intros [[_ [_ [_ [En _]]]] _]; exact En. Qed.

Lemma cache_len_nonneg s : 0 <= cache_len s.
Proof. unfold cache_len, OrderedDict.len; lia. Qed.

(** One step of the sweep when the cache has room: afterwards the cache
    agrees with the decoder at the index, and nothing else changed. *)
Lemma prefetch_frame_room k s c :
  cap s = Some c -> cache_enabled s = true -> cache_consistent s ->
  cache_len s < cache_size s ->
  post (prefetch_frame k) s
       (fun _ s' _ =>
          kept s s' /\
          cache_len s' <= cache_len s + 1 /\
          cached k s' = frame_at c k /\
          forall j, j <> k -> cached j s' = cached j s).
Proof.
  intros E En H Room.
  assert (C : 1 <= cache_size s) by (pose proof (cache_len_nonneg s); lia).
  assert (P2 : post (prefetch_frame k) s
                 (fun _ s' _ =>
                    cache_len s' <= cache_len s + 1 /\
                    cached k s' = frame_at c k /\
                    forall j, j <> k -> cached j s' = cached j s));
    [|destruct (post_and _ _ _ _ (prefetch_frame_ok k s c E C) P2)
        as [u [R [[K _] Q]]]; exists u; auto].
  unfold prefetch_frame.
  apply post_bind, post_gets.
  destruct (OrderedDict.contains k (frame_cache s)) eqn:Ct.
  { apply post_ret. split; [lia|]. split; [|auto].
    unfold OrderedDict.contains in Ct.
    destruct (OrderedDict.lookup k (frame_cache s)) as [f|] eqn:L; [|discriminate].
    assert (Ck : cached k s = Some f) by (unfold cached; rewrite En; exact L).
    rewrite Ck. symmetry. eapply cached_consistent; eassumption. }
  apply contains_false in Ct.
  assert (Ck : cached k s = None) by (unfold cached; rewrite En; exact Ct).
  apply post_bind, post_cap_set_pos with (c := c); [assumption|].
  apply post_bind, post_cap_read with (c := capture_set_pos k c); [reflexivity|].
  intros r c' R.
  set (s1 := set_cap (Some c') (set_cap (Some (capture_set_pos k c)) s)).
  destruct r as [f|].
  - destruct (capture_read_some _ _ _ R) as [F _].
    rewrite frame_at_after_set_pos in F.
    assert (Room1 : OrderedDict.len (frame_cache s1) < cache_size s1) by exact Room.
    eapply post_eq; [apply (add_to_cache_room k (copy f) s1 En Room1)|].
    simpl. unfold cached, cache_len, OrderedDict.len; simpl. rewrite En, F.
    pose proof (OrderedDictFacts.length_setitem_le k (copy f) (frame_cache s)).
    split; [lia|]. split; [apply lookup_setitem_same|].
    intros j N. apply lookup_setitem_other; exact N.
  - destruct (capture_read_none _ _ R) as [-> F].
    rewrite frame_at_after_set_pos in F.
    apply post_ret. unfold s1, cached, cache_len; simpl. rewrite En, Ct, F.
    split; [lia | auto].
Qed.

Lemma for_each_prefetch_room ks : forall s c,
  cap s = Some c -> cache_enabled s = true -> cache_consistent s ->
  cache_len s + Z.of_nat (length ks) <= cache_size s ->
  post (for_each ks prefetch_frame) s
       (fun _ s' _ =>
          kept s s' /\
          cache_len s' <= cache_len s + Z.of_nat (length ks) /\
          (forall k, In k ks -> cached k s' = frame_at c k) /\
          (forall j, ~ In j ks -> cached j s' = cached j s)).
Proof.
  induction ks as [|k ks IH]; intros s c E En H Room; simpl for_each.
  - apply post_ret. split; [apply kept_refl|].
    split; [simpl; lia|]. split; [intros k []|auto].
  - simpl length in Room.
    apply post_bind.
    eapply post_weaken; [apply (prefetch_frame_room k s c E En H); lia|cbv beta].
    intros u s1 ev1 [K1 [L1 [Ck Oth]]].
    destruct (kept_cap _ _ _ K1 E) as [c1 [E1 SM1]].
    assert (En1 : cache_enabled s1 = true) by (rewrite (kept_enabled _ _ K1); exact En).
    assert (H1 : cache_consistent s1) by (apply K1; exact H).
    assert (Room1 : cache_len s1 + Z.of_nat (length ks) <= cache_size s1)
      by (rewrite (kept_size _ _ K1); lia).
    eapply post_weaken; [apply (IH s1 c1 E1 En1 H1 Room1)|cbv beta].
    intros u' s2 ev2 [K2 [L2 [In2 Out2]]].
    split; [eapply kept_trans; eassumption|].
    split; [simpl length; lia|]. split.
    + intros j Ij.
      destruct (in_dec Z.eq_dec j ks) as [I|NI].
      * rewrite (In2 j I). apply frame_at_same_media; exact SM1.
      * destruct Ij as [<-|I]; [|contradiction].
        rewrite (Out2 k NI); exact Ck.
    + intros j NI.
      assert (Nk : j <> k) by (intros ->; apply NI; left; reflexivity).
      assert (NI' : ~ In j ks) by (intros I; apply NI; right; exact I).
      rewrite (Out2 j NI'). apply Oth; exact Nk.
Qed.

(** X4.  With room in the cache a prefetch makes the cache agree with the
    decoder on its whole window.  On a loaded handler with the cache
    enabled and consistent, if the entries it holds plus the indices of
    the window fit the capacity, [_prefetch_frames a b] returns normally
    and afterwards a lookup of any index in [[a, min(b, frame_count))]
    yields the frame the capture has there (nothing where it has none),
    and a lookup of any other index yields what it did before. *)
Theorem prefetch_fills_window_when_room :
  forall (a b : Z) (s : VideoHandler) (c : Capture),
    cap s = Some c ->
    cache_enabled s = true ->
    cache_consistent s ->
    cache_len s + Z.of_nat (length (range a (Z.min b (frame_count s))))
      <= cache_size s ->
    out_result (_prefetch_frames a b s) = inl tt /\
    (forall k, a <= k < Z.min b (frame_count s) ->
               cached k (out_state (_prefetch_frames a b s)) = frame_at c k) /\
    (forall k, ~ (a <= k < Z.min b (frame_count s)) ->
               cached k (out_state (_prefetch_frames a b s)) = cached k s).
Proof.
  intros a b s c E En H Room.
  assert (P : post (_prefetch_frames a b) s
                (fun _ s' _ =>
                   (forall k, a <= k < Z.min b (frame_count s) ->
                              cached k s' = frame_at c k) /\
                   (forall k, ~ (a <= k < Z.min b (frame_count s)) ->
                              cached k s' = cached k s))).
  { unfold _prefetch_frames.
    apply post_bind, post_emit.
    apply post_bind, post_gets.
    apply post_bind, post_gets.
    unfold has_cap; rewrite En, E; simpl orb; cbv iota.
    apply post_bind, post_cap_get_pos with (c := c); [assumption|].
    apply post_bind, post_gets.
    apply post_bind.
    eapply post_weaken; [apply (for_each_prefetch_room _ s c E En H Room)|cbv beta].
    intros u s1 ev1 [K1 [_ [In1 Out1]]].
    destruct (kept_cap _ _ _ K1 E) as [c1 [E1 _]].
    apply post_cap_set_pos with (c := c1); [assumption|].
    split.
    - intros k B. apply (In1 k). apply In_range; exact B.
    - intros k B. apply (Out1 k). rewrite In_range; exact B. }
  destruct P as [[] [R Q]]. exact (conj R Q).
Qed.

Lemma prefetch_fills_window_when_room_witness :
  let s := out_state (get_frame_at_position 0
                        (mkHandler (Some Fixtures.damaged) None 6 [] 8 true)) in
  out_result (_prefetch_frames 2 9 s) = inl tt /\
  cached 3 (out_state (_prefetch_frames 2 9 s)) = Some [3] /\
  cached 4 (out_state (_prefetch_frames 2 9 s)) = None /\
  cached 0 (out_state (_prefetch_frames 2 9 s)) = cached 0 s.
Proof.
  intros s.
  assert (H : cache_consistent s).
  { assert (H0 : cache_consistent
                   (mkHandler (Some Fixtures.damaged) None 6 [] 8 true))
      by (intros k f []).
    assert (C0 : 1 <= 8) by lia.
    destruct (get_frame_at_position_ok 0
                (mkHandler (Some Fixtures.damaged) None 6 [] 8 true)
                Fixtures.damaged eq_refl H0 C0)
      as [r [_ [[_ Co] _]]].
    apply Co; exact H0. }
  destruct (prefetch_fills_window_when_room 2 9 s
              (mkCapture true (cap_stream Fixtures.damaged) 6 1)
              eq_refl eq_refl H) as [R [I O]].
  - vm_compute; discriminate.
  - split; [exact R|].
    split; [apply (I 3); vm_compute; split; [discriminate | reflexivity]|].
    split; [apply (I 4); vm_compute; split; [discriminate | reflexivity]|].
    apply (O 0); vm_compute; intros [A _]; apply A; reflexivity.
Defined.

(** ** The cache switched off *)

Lemma prefetch_frames_disabled a b s :
  cache_enabled s = false ->
  _prefetch_frames a b s = mkOut s [Prefetch a b] (inl tt).
Proof.
  intros En; unfold _prefetch_frames, bind, gets, emit; simpl.
  rewrite En; reflexivity.
Qed.

Lemma get_current_frame_disabled s c :
  cap s = Some c -> cache_enabled s = false ->
  post get_current_frame s
       (fun r s' _ =>
          r = frame_at c (capture_get_pos c) /\
          frame_cache s' = frame_cache s /\
          cache_enabled s' = false /\
          exists c', cap s' = Some c').
Proof.
  intros E En. unfold get_current_frame.
  apply post_bind, post_gets.
  unfold has_cap at 1; rewrite E; simpl negb; cbv iota.
  apply post_bind, post_cap_get_pos with (c := c); [assumption|].
  apply post_bind.
  eapply post_eq; [apply (get_from_cache_disabled _ s En)|].
  apply post_bind, post_cap_read with (c := c); [assumption|].
  intros r c' R.
  destruct r as [f|].
  - destruct (capture_read_some _ _ _ R) as [F _].
    apply post_bind.
    eapply post_eq;
      [apply (add_to_cache_disabled _ (copy f) (set_cap (Some c') s) En)|].
    apply post_bind, post_gets. apply post_bind.
    destruct (Z.min (capture_get_pos c + 10) (frame_count (set_cap (Some c') s))
              >? capture_get_pos c + 1).
    + eapply post_eq;
        [apply (prefetch_frames_disabled _ _ (set_cap (Some c') s) En)|].
      apply post_ret; simpl; eauto 6.
    + apply post_ret, post_ret; simpl; eauto 6.
  - destruct (capture_read_none _ _ R) as [-> F].
    apply post_ret; simpl; eauto 6.
Qed.

(** X5.  With the cache disabled the frame operations leave the cache
    alone and cannot fail on it.  On a loaded handler whose cache is
    disabled, whatever the capacity and whatever the cache still holds,
    [get_current_frame] and [get_frame_at_position n] return the frame the
    capture has at the cursor and at [n], [seek] returns, the prefetcher
    does nothing, and after each of them the cache holds exactly the
    entries it held, in the same order. *)
Theorem disabled_cache_is_left_alone :
  forall (s : VideoHandler) (c : Capture) (n : Z),
    cap s = Some c ->
    cache_enabled s = false ->
    (out_result (get_current_frame s) = inl (frame_at c (capture_get_pos c)) /\
     frame_cache (out_state (get_current_frame s)) = frame_cache s) /\
    (out_result (get_frame_at_position n s) = inl (frame_at c n) /\
     frame_cache (out_state (get_frame_at_position n s)) = frame_cache s) /\
    (out_result (seek n s) = inl tt /\
     frame_cache (out_state (seek n s)) = frame_cache s) /\
    (forall a b, _prefetch_frames a b s = mkOut s [Prefetch a b] (inl tt)).
Proof.
  intros s c n E En.
  split; [|split; [|split]].
  - destruct (get_current_frame_disabled s c E En) as [r [R [-> [Fc _]]]]; auto.
  - assert (P : post (get_frame_at_position n) s
                  (fun r s' _ => r = frame_at c n /\
                                 frame_cache s' = frame_cache s)).
    { unfold get_frame_at_position.
      apply post_bind, post_gets.
      unfold has_cap at 1; rewrite E; simpl negb; cbv iota.
      apply post_bind.
      eapply post_eq; [apply (get_from_cache_disabled _ s En)|].
      apply post_bind, post_cap_set_pos with (c := c); [assumption|].
      apply post_bind.
      eapply post_weaken;
        [apply (get_current_frame_disabled
                  (set_cap (Some (capture_set_pos n c)) s)
                  (capture_set_pos n c) eq_refl En)|cbv beta].
      intros r s3 ev3 [Hr [Fc [En3 _]]].
      rewrite frame_at_after_set_pos in Hr.
      apply post_bind, post_gets. apply post_bind.
      eapply post_eq; [apply (prefetch_frames_disabled _ _ s3 En3)|].
      apply post_ret; auto. }
    destruct P as [r [R [-> Fc]]]; auto.
  - assert (P : post (seek n) s
                  (fun _ s' _ => frame_cache s' = frame_cache s)).
    { unfold seek.
      apply post_bind, post_gets.
      unfold has_cap at 1; rewrite E; simpl negb; cbv iota.
      apply post_bind, post_cap_set_pos with (c := c); [assumption|].
      apply post_bind, post_gets.
      eapply post_eq;
        [apply (prefetch_frames_disabled _ _
                  (set_cap (Some (capture_set_pos n c)) s) En)|].
      reflexivity. }
    destruct P as [[] [R Fc]]; auto.
  - intros a b; apply prefetch_frames_disabled; exact En.
Qed.

Lemma disabled_cache_is_left_alone_witness :
  let s := mkHandler (Some Fixtures.damaged) None 6 [(3, [3]); (0, [0])] 0 false in
  (out_result (get_current_frame s) = inl (Some [0]) /\
   frame_cache (out_state (get_current_frame s)) = [(3, [3]); (0, [0])]) /\
  (out_result (get_frame_at_position 4 s) = inl None /\
   frame_cache (out_state (get_frame_at_position 4 s)) = [(3, [3]); (0, [0])]) /\
  (out_result (seek 2 s) = inl tt /\
   frame_cache (out_state (seek 2 s)) = [(3, [3]); (0, [0])]) /\
  _prefetch_frames 0 6 s = mkOut s [Prefetch 0 6] (inl tt).
Proof.
  intros s.
  destruct (disabled_cache_is_left_alone s Fixtures.damaged 4 eq_refl eq_refl)
    as [A [B [_ D]]].
  destruct (disabled_cache_is_left_alone s Fixtures.damaged 2 eq_refl eq_refl)
    as [_ [_ [C _]]].
  split; [exact A | split; [exact B | split; [exact C | apply D]]].
Defined.

(** ** Releasing the handler *)

Lemma release_eq (s : VideoHandler) :
  release s =
  mkOut (set_frame_cache OrderedDict.empty
           (if has_cap s then set_cap None s else s))
        (if has_cap s then [Release] else []) (inl tt).
Proof.
  unfold release, bind, gets, modify, emit, ret, has_cap.
  destruct (cap s); reflexivity.
Qed.

(** X6.  [release] unloads the handler whatever state it is in: it
    returns normally, calls the decoder only to release a handle that was
    held, and leaves no handle and an empty cache.  A second [release]
    then does nothing at all, and every frame request on the released
    handler returns [None] (a seek returns) without reaching the decoder
    and without changing the handler. *)
Theorem release_unloads :
  forall (s : VideoHandler) (n : Z),
    out_result (release s) = inl tt /\
    out_events (release s) = (if has_cap s then [Release] else []) /\
    cap (out_state (release s)) = None /\
    frame_cache (out_state (release s)) = [] /\
    release (out_state (release s)) = mkOut (out_state (release s)) [] (inl tt) /\
    get_current_frame (out_state (release s)) =
      mkOut (out_state (release s)) [] (inl None) /\
    get_frame_at_position n (out_state (release s)) =
      mkOut (out_state (release s)) [] (inl None) /\
    seek n (out_state (release s)) = mkOut (out_state (release s)) [] (inl tt).
Proof.
  intros s n.
  assert (E : cap (out_state (release s)) = None).
  { rewrite release_eq. destruct s as [[c|] v fc d sz en]; reflexivity. }
  split; [|split; [|split; [exact E|split; [|split; [|split; [|split]]]]]].
  - rewrite release_eq; reflexivity.
  - rewrite release_eq; reflexivity.
  - rewrite release_eq. destruct s as [[c|] v fc d sz en]; reflexivity.
  - rewrite release_eq. destruct s as [[c|] v fc d sz en]; reflexivity.
  - apply unloaded_get_current_frame; exact E.
  - apply unloaded_get_frame_at_position; exact E.
  - apply unloaded_seek; exact E.
Qed.

(** ** A capacity below 1 *)

Lemma fails_now {A B} (m : M A) (k : A -> M B) s e P :
  fails m s e P -> fails (bind m k) s e P.
Proof. intros [R H]; unfold fails, bind; rewrite R; simpl; auto. Qed.

Lemma fails_later {A B} (m : M A) (k : A -> M B) s e P :
  post m s (fun a s1 _ => fails (k a) s1 e P) -> fails (bind m k) s e P.
Proof.
  intros [a [R [R' H]]]; unfold fails, bind; rewrite R; simpl; auto.
Qed.

Lemma range_cons a b : a < b -> range a b = a :: range (a + 1) b.
Proof.
  intros L; unfold range.
  replace (Z.to_nat (b - a)) with (S (Z.to_nat (b - (a + 1)))) by lia.
  simpl seq; simpl map. f_equal; [lia|].
  rewrite <- seq_shift, map_map.
  apply map_ext; intros i; lia.
Qed.

(** The sweep on an empty cache without capacity: the first frame it
    decodes cannot be inserted, and the cursor is left behind it. *)
Lemma prefetch_frames_fails a b s c f :
  cap s = Some c -> cache_enabled s = true ->
  cache_size s <= 0 -> frame_cache s = [] ->
  a < Z.min b (frame_count s) ->
  frame_at c a = Some f ->
  fails (_prefetch_frames a b) s KeyError
        (fun s' => get_current_position s' = a + 1 /\ frame_cache s' = [] /\
                   frame_count s' = frame_count s).
Proof.
  intros E En C Em W F.
  pose proof (frame_at_opened _ _ _ F) as O.
  unfold _prefetch_frames.
  apply fails_later, post_emit.
  apply fails_later, post_gets.
  apply fails_later, post_gets.
  unfold has_cap; rewrite En, E; simpl orb; cbv iota.
  apply fails_later, post_cap_get_pos with (c := c); [assumption|].
  apply fails_later, post_gets.
  apply fails_now.
  rewrite (range_cons _ _ W); simpl for_each.
  apply fails_now.
  unfold prefetch_frame.
  apply fails_later, post_gets.
  rewrite Em; simpl OrderedDict.contains; cbv iota.
  apply fails_later, post_cap_set_pos with (c := c); [assumption|].
  apply fails_later, post_cap_read with (c := capture_set_pos a c); [reflexivity|].
  intros r c' R.
  assert (F' : frame_at (capture_set_pos a c)
                 (capture_get_pos (capture_set_pos a c)) = Some f)
    by (rewrite frame_at_after_set_pos; exact F).
  destruct (capture_read_at _ _ F') as [c1 R1].
  rewrite R1 in R; inversion R; subst r c'.
  destruct (capture_read_some _ _ _ R1) as [_ [_ P]].
  rewrite get_pos_set_pos in P by exact O.
  set (s1 := set_cap (Some c1) (set_cap (Some (capture_set_pos a c)) s)).
  unfold fails.
  rewrite (add_to_cache_empty_full a (copy f) s1 En C Em); simpl.
  unfold get_current_position; simpl. auto.
Qed.

(** X7.  A capacity of 0 or less makes [load_video] raise.  If the first
    backend opens the file, the capture reports at least one frame and its
    frame 0 can be read, then on a handler whose cache is enabled with a
    capacity of 0 or less [load_video] raises [KeyError] out of its warm-up
    prefetch: the first frame decoded cannot be inserted.  The handler is
    left holding the new capture with the cursor at 1, an empty cache and
    the new frame count. *)
Theorem load_video_raises_without_capacity :
  forall (w : Opener) (path : String.string) (s : VideoHandler)
         (c0 : Capture) (f : Frame),
    open_with w path CAP_FFMPEG = Some c0 ->
    cap_opened c0 = true ->
    1 <= cap_frame_count c0 ->
    frame_at c0 0 = Some f ->
    cache_enabled s = true ->
    cache_size s <= 0 ->
    out_result (load_video w path s) = inr KeyError /\
    has_cap (out_state (load_video w path s)) = true /\
    get_current_position (out_state (load_video w path s)) = 1 /\
    frame_cache (out_state (load_video w path s)) = [] /\
    frame_count (out_state (load_video w path s)) = cap_frame_count c0.
Proof.
  intros w path s c0 f Op Oc Fc F En C.
  assert (Fl : fails (load_video w path) s KeyError
                 (fun s' => get_current_position s' = 0 + 1 /\
                            frame_cache s' = [] /\
                            frame_count s' = cap_frame_count c0)).
  { unfold load_video.
    apply fails_later, post_gets.
    apply fails_later.
    apply post_weaken with (Q := fun _ s' (_ : list Event) => s' = s).
    { destruct (has_cap s); [apply post_emit | apply post_ret]; auto. }
    intros u0 s0' ev0 E0; rewrite E0; clear E0.
    apply fails_later, post_modify.
    apply fails_later, post_modify.
    set (s1 := set_cap None (set_frame_cache OrderedDict.empty s)).
    apply fails_later.
    simpl try_backends. rewrite Op, Oc.
    apply post_bind, post_emit. apply post_modify.
    apply fails_later, post_gets. simpl has_cap. simpl negb. cbv iota.
    apply fails_later, post_ret.
    apply fails_later, post_gets. simpl cap. cbv iota.
    rewrite Oc; simpl negb; cbv iota.
    apply fails_later, post_modify.
    apply fails_later, post_gets.
    apply fails_now.
    apply prefetch_frames_fails with (c := c0) (f := f); auto.
    simpl frame_count. lia. }
  destruct Fl as [R [P [Em Fcount]]].
  refine (conj R (conj _ (conj P (conj Em Fcount)))).
  unfold get_current_position, has_cap in *.
  destruct (cap (out_state (load_video w path s))); [reflexivity | discriminate].
Qed.

Lemma load_video_raises_without_capacity_witness :
  let o := load_video (Fixtures.opener (Fixtures.clip 3)) Fixtures.clip_path
                      (init 0) in
  out_result o = inr KeyError /\
  has_cap (out_state o) = true /\
  get_current_position (out_state o) = 1 /\
  frame_cache (out_state o) = [] /\
  frame_count (out_state o) = 3.
Proof.
  apply (load_video_raises_without_capacity
           (Fixtures.opener (Fixtures.clip 3)) Fixtures.clip_path (init 0)
           (Fixtures.clip 3) [0]).
  - reflexivity.
  - reflexivity.
  - simpl; lia.
  - reflexivity.
  - reflexivity.
  - simpl; lia.
Defined.

(** ** A cache above its bound stays above it *)

Lemma length_app_one {A} (l : list A) (x : A) :
  Z.of_nat (length (l ++ [x])) = Z.of_nat (length l) + 1.
Proof. rewrite length_app; simpl; lia. Qed.

Lemma cache_op_keeps_size op s :
  at_or_over_capacity s ->
  not_clear op ->
  match op with
  | CachePut k _ => OrderedDict.contains k (frame_cache s) = false
  | _ => True
  end ->
  out_result (cache_op op s) = inl tt /\
  cache_len (out_state (cache_op op s)) = cache_len s /\
  at_or_over_capacity (out_state (cache_op op s)).
Proof.
  intros [ND [Pos Over]] NC New.
  assert (Keep : forall d,
             NoDup (OrderedDict.keys d) ->
             Z.of_nat (length d) = cache_len s ->
             cache_len (set_frame_cache d s) = cache_len s /\
             at_or_over_capacity (set_frame_cache d s)).
  { intros d N L. unfold at_or_over_capacity, one_entry_per_index, cache_len,
      OrderedDict.len in *. simpl. rewrite L. auto. }
  destruct op as [k|k f|]; unfold cache_op; [| |destruct NC].
  - unfold bind.
    destruct (get_from_cache_cases k s) as [[-> _]|[f [_ [Hit ->]]]]; simpl.
    + split; [reflexivity|]. split; [reflexivity|].
      split; [exact ND | split; assumption].
    + split; [reflexivity|].
      pose proof (OrderedDictFacts.lookup_remove_same k _ ND) as Gone.
      apply Keep.
      * apply NoDup_keys_setitem, NoDup_keys_remove; exact ND.
      * rewrite (OrderedDictFacts.setitem_fresh _ _ _ Gone), length_app_one.
        pose proof (OrderedDictFacts.length_remove_hit _ _ _ Hit).
        unfold cache_len, OrderedDict.len. lia.
  - apply contains_false in New.
    destruct (add_to_cache_cases k f s)
      as [[-> _]|[[_ [R _]]|[[e [d [_ [_ [D ->]]]]]|[_ [_ [D _]]]]]]; simpl.
    + split; [reflexivity|]. split; [reflexivity|].
      split; [exact ND | split; assumption].
    + unfold cache_len in *; lia.
    + assert (New' : OrderedDict.lookup k d = None)
        by (rewrite D in New; eapply lookup_tail; exact New).
      split; [reflexivity|].
      apply Keep.
      * apply NoDup_keys_setitem.
        unfold one_entry_per_index in ND; rewrite D in ND; simpl in ND.
        inversion ND; assumption.
      * rewrite (OrderedDictFacts.setitem_fresh _ _ _ New'), length_app_one.
        unfold cache_len, OrderedDict.len. rewrite D. simpl length. lia.
    + unfold cache_len, OrderedDict.len in Pos; rewrite D in Pos; simpl in Pos; lia.
Qed.

(** X8.  A cache that is not empty and holds at least as many entries as
    its capacity (as it does once the capacity has been set below its
    size) keeps exactly its size: along any sequence of lookups and of
    inserts of indices that are not cached, no operation raises and after
    each one the cache has as many entries as at the start.  Only a clear
    brings it back under a lowered bound. *)
Theorem cache_over_capacity_keeps_its_size :
  forall (ops : list CacheOp) (s : VideoHandler),
    at_or_over_capacity s ->
    Forall not_clear ops ->
    puts_are_new ops s ->
    Forall (fun o => out_result o = inl tt /\
                     cache_len (out_state o) = cache_len s)
           (cache_run ops s).
Proof.
  induction ops as [|op ops IH]; intros s A NC News; simpl; constructor;
    inversion NC as [|? ? NCop NCops]; subst;
    destruct News as [New Rest];
    destruct (cache_op_keeps_size op s A NCop New) as [R [L A']].
  - auto.
  - rewrite <- L. apply IH; assumption.
Qed.

Lemma cache_over_capacity_keeps_its_size_witness :
  let s := out_state (apply_cache_settings 1 true
                        (mkHandler None None 0
                           [(1, [10]); (2, [20]); (3, [30])] 3 true)) in
  Forall (fun o => out_result o = inl tt /\ cache_len (out_state o) = 3)
         (cache_run [CachePut 4 [40]; CacheGet 3; CachePut 5 [50];
                     CachePut 6 [60]; CacheGet 9] s).
Proof.
  intros s.
  apply (cache_over_capacity_keeps_its_size
           [CachePut 4 [40]; CacheGet 3; CachePut 5 [50];
            CachePut 6 [60]; CacheGet 9] s).
  - split; [|split].
    + unfold one_entry_per_index; simpl.
      repeat constructor; simpl; intuition discriminate.
    + vm_compute; reflexivity.
    + vm_compute; discriminate.
  - repeat constructor.
  - simpl; auto 10.
Defined.

(** * Part 5: the callers in the main window *)

(** ** Stepping and playback *)

Lemma ready_cap s :
  ready s ->
  exists c, cap s = Some c /\ cap_opened c = true /\
            cache_consistent s /\ 1 <= cache_size s /\
            get_current_position s = capture_get_pos c.
Proof.
  intros [[c [E O]] [H C]]. exists c.
  unfold get_current_position; rewrite E; auto.
Qed.

(** [seek_video n] fetches the frame at [n] and leaves the cursor behind
    it. *)
Lemma seek_video_ok n s c :
  cap s = Some c -> ready s ->
  post (seek_video n) s
       (fun r s' _ =>
          kept s s' /\
          r = frame_at c n /\
          get_current_position s' =
            match r with Some _ => n + 1 | None => n end).
Proof.
  intros E R. destruct (ready_cap s R) as [c' [E' [O [H [C _]]]]].
  rewrite E in E'; inversion E'; subst c'.
  unfold seek_video, show_current_frame.
  apply post_bind.
  eapply post_weaken; [apply (seek_ok n s c E C)|cbv beta].
  intros u s1 ev1 [K1 [P1 _]].
  destruct (kept_cap _ _ _ K1 E) as [c1 [E1 SM1]].
  assert (H1 : cache_consistent s1) by (apply K1; exact H).
  assert (C1 : 1 <= cache_size s1) by (rewrite (kept_size _ _ K1); exact C).
  assert (P1' : capture_get_pos c1 = n).
  { unfold get_current_position in P1; rewrite E1 in P1.
    rewrite P1; apply get_pos_set_pos; exact O. }
  eapply post_weaken; [apply (get_current_frame_ok s1 c1 E1 H1 C1)|cbv beta].
  intros r s2 ev2 [K2 [Hr [P2 _]]].
  rewrite P1' in *. rewrite (frame_at_same_media _ _ _ SM1) in Hr.
  split; [eapply kept_trans; eassumption | auto].
Qed.

(** X9.  Stepping is relative to the cursor, which stands one past the
    frame on display.  On a loaded handler, once [show_current_frame] has
    put frame [N] on display, [previous_frame] fetches frame [N] again --
    it does not step back -- and leaves the cursor where it was, and
    [next_frame] fetches frame [min(N + 2, frame_count - 1)], passing over
    frame [N + 1] unless the clamp stops it. *)
Theorem stepping_from_the_displayed_frame :
  forall (s : VideoHandler) (c : Capture) (f : Frame),
    ready s ->
    cap s = Some c ->
    frame_at c (capture_get_pos c) = Some f ->
    let N := capture_get_pos c in
    let s1 := out_state (show_current_frame s) in
    out_result (show_current_frame s) = inl (Some f) /\
    get_current_position s1 = N + 1 /\
    out_result (previous_frame s1) = inl (Some (N, Some f)) /\
    get_current_position (out_state (previous_frame s1)) = N + 1 /\
    out_result (next_frame s1) =
      inl (Some (Z.min (N + 2) (frame_count s - 1),
                 frame_at c (Z.min (N + 2) (frame_count s - 1)))).
Proof.
  intros s c f R E F N s1.
  destruct (ready_cap s R) as [c' [E' [O [H [C _]]]]].
  rewrite E in E'; inversion E'; subst c'.
  destruct (get_current_frame_ok s c E H C) as [r [Rr [K [Hr [P _]]]]].
  fold N in Hr, P, F. rewrite F in Hr; subst r.
  unfold show_current_frame in *. fold s1 in K, P.
  assert (R1 : ready s1) by (eapply ready_kept; eassumption).
  destruct (kept_cap _ _ _ K E) as [c1 [E1 SM1]].
  assert (Has : has_cap s1 = true) by (unfold has_cap; rewrite E1; reflexivity).
  assert (Fc : frame_count s1 = frame_count s)
    by (apply steady_frame_count; apply K).
  assert (N0 : 0 <= N).
  { unfold frame_at in F. destruct (cap_opened c); [|discriminate].
    destruct (Z.leb_spec 0 N); [assumption | discriminate]. }
  split; [exact Rr | split; [exact P|]].
  assert (Prev : post previous_frame s1
                   (fun r s' _ => r = Some (N, Some f) /\
                                  get_current_position s' = N + 1)).
  { unfold previous_frame.
    apply post_bind, post_gets. rewrite Has; simpl negb; cbv iota.
    apply post_bind, post_gets. rewrite P.
    replace (Z.max (N + 1 - 1) 0) with N by lia.
    apply post_bind.
    eapply post_weaken; [apply (seek_video_ok N s1 c1 E1 R1)|cbv beta].
    intros r s2 ev2 [_ [Hr P2]].
    rewrite (frame_at_same_media _ _ _ SM1), F in Hr; subst r.
    apply post_ret; auto. }
  assert (Next : post next_frame s1
                   (fun r s' _ =>
                      r = Some (Z.min (N + 2) (frame_count s - 1),
                                frame_at c (Z.min (N + 2) (frame_count s - 1))))).
  { unfold next_frame.
    apply post_bind, post_gets. rewrite Has; simpl negb; cbv iota.
    apply post_bind, post_gets. rewrite P.
    apply post_bind, post_gets. rewrite Fc.
    replace (N + 1 + 1) with (N + 2) by lia.
    apply post_bind.
    eapply post_weaken; [apply (seek_video_ok _ s1 c1 E1 R1)|cbv beta].
    intros r s2 ev2 [_ [Hr _]].
    rewrite (frame_at_same_media _ _ _ SM1) in Hr; subst r.
    apply post_ret; auto. }
  destruct Prev as [rp [Rp [-> Pp]]]. destruct Next as [rn [Rn ->]].
  auto.
Qed.

Lemma stepping_from_the_displayed_frame_witness :
  let s := Fixtures.loaded 4 (Fixtures.clip 10) in
  let s1 := out_state (show_current_frame s) in
  out_result (show_current_frame s) = inl (Some [0]) /\
  get_current_position s1 = 1 /\
  out_result (previous_frame s1) = inl (Some (0, Some [0])) /\
  get_current_position (out_state (previous_frame s1)) = 1 /\
  out_result (next_frame s1) = inl (Some (2, Some [2])).
Proof.
  intros s s1.
  assert (R : ready s).
  { apply (load_video_ready (Fixtures.opener (Fixtures.clip 10))
             Fixtures.clip_path (init 4) 10); [simpl; lia | reflexivity]. }
  exact (stepping_from_the_displayed_frame s (Fixtures.clip 10) [0]
           R eq_refl eq_refl).
Defined.

(** X10.  Playback stays before the out point.  On a loaded handler a
    tick of the playback timer while playing fetches the frame at the
    cursor, or, when the cursor has reached the out point, seeks to the in
    point and fetches the frame there.  With the in point before the out
    point the frame fetched is therefore always before the out point, and
    when it could be read the cursor afterwards is at most the out
    point. *)
Theorem playback_tick_stays_before_out_point :
  forall (s : VideoHandler) (c : Capture) (in_point out_point : Z),
    ready s ->
    cap s = Some c ->
    in_point < out_point ->
    let i := if capture_get_pos c >=? out_point
             then in_point else capture_get_pos c in
    i < out_point /\
    out_result (playback_tick in_point out_point true s) =
      inl (Some (i, frame_at c i)) /\
    (frame_at c i <> None ->
     get_current_position
       (out_state (playback_tick in_point out_point true s)) = i + 1).
Proof.
  intros s c in_point out_point R E Lt i.
  destruct (ready_cap s R) as [c' [E' [O [H [C P0]]]]].
  rewrite E in E'; inversion E'; subst c'.
  assert (Li : i < out_point).
  { unfold i; destruct (Z.geb_spec (capture_get_pos c) out_point); lia. }
  split; [exact Li|].
  assert (Pt : post (playback_tick in_point out_point true) s
                 (fun r s' _ =>
                    r = Some (i, frame_at c i) /\
                    (frame_at c i <> None -> get_current_position s' = i + 1))).
  { unfold playback_tick.
    apply post_bind, post_gets.
    unfold has_cap at 1; rewrite E; simpl; cbv iota.
    apply post_bind, post_gets. rewrite P0. fold i.
    destruct (capture_get_pos c >=? out_point) eqn:G.
    - (* jump back to the in point *)
      subst i.
      apply post_bind. apply post_bind.
      eapply post_weaken; [apply (seek_ok in_point s c E C)|cbv beta].
      intros u s1 ev1 [K1 [P1 _]]. apply post_ret.
      destruct (kept_cap _ _ _ K1 E) as [c1 [E1 SM1]].
      assert (H1 : cache_consistent s1) by (apply K1; exact H).
      assert (C1 : 1 <= cache_size s1) by (rewrite (kept_size _ _ K1); exact C).
      assert (P1' : capture_get_pos c1 = in_point).
      { unfold get_current_position in P1; rewrite E1 in P1.
        rewrite P1; apply get_pos_set_pos; exact O. }
      apply post_bind. unfold show_current_frame.
      eapply post_weaken; [apply (get_current_frame_ok s1 c1 E1 H1 C1)|cbv beta].
      intros r s2 ev2 [_ [Hr [P2 _]]].
      rewrite P1' in *. rewrite (frame_at_same_media _ _ _ SM1) in Hr.
      apply post_ret. subst r. split; [reflexivity|].
      intros NN. rewrite P2.
      destruct (frame_at c in_point); [reflexivity | congruence].
    - subst i.
      apply post_bind, post_ret.
      apply post_bind. unfold show_current_frame.
      eapply post_weaken; [apply (get_current_frame_ok s c E H C)|cbv beta].
      intros r s2 ev2 [_ [Hr [P2 _]]].
      apply post_ret. subst r. split; [reflexivity|].
      intros NN. rewrite P2.
      destruct (frame_at c (capture_get_pos c)); [reflexivity | congruence]. }
  destruct Pt as [r [Rr [-> Pp]]]. auto.
Qed.

Lemma playback_tick_stays_before_out_point_witness :
  let s := out_state (seek 7 (Fixtures.loaded 4 (Fixtures.clip 10))) in
  3 < 7 /\
  out_result (playback_tick 3 7 true s) = inl (Some (3, Some [3])) /\
  get_current_position (out_state (playback_tick 3 7 true s)) = 4.
Proof.
  intros s.
  assert (R0 : ready (Fixtures.loaded 4 (Fixtures.clip 10))).
  { apply (load_video_ready (Fixtures.opener (Fixtures.clip 10))
             Fixtures.clip_path (init 4) 10); [simpl; lia | reflexivity]. }
  assert (R : ready s).
  { destruct (seek_ok 7 (Fixtures.loaded 4 (Fixtures.clip 10))
                (Fixtures.clip 10) eq_refl (proj2 (proj2 R0)))
      as [u [_ [K _]]].
    exact (ready_kept _ _ R0 K). }
  assert (Lt : 3 < 7) by lia.
  destruct (playback_tick_stays_before_out_point s
              (mkCapture true (cap_stream (Fixtures.clip 10)) 10 7) 3 7
              R eq_refl Lt) as [L [Rr P]].
  split; [exact L | split; [exact Rr|]].
  apply P; discriminate.
Defined.

(** * Part 6: the timeline, the recent files and the export names *)

(** ** The timeline's marked region *)

Lemma timeline_apply_region_ok (op : Timeline.Op) (w : Timeline.t) :
  Timeline.region_ok w -> Timeline.region_ok (Timeline.apply op w).
Proof.
  unfold Timeline.region_ok.
  destruct w as [d p i o]; simpl. intros [D [[I1 I2] O]].
  destruct op as [fc|position|i' o'|raw|raw|raw]; simpl;
    unfold Timeline.update_position_from_mouse,
           Timeline.update_in_point_from_mouse,
           Timeline.update_out_point_from_mouse,
           Timeline._screen_to_frame; simpl;
    try match goal with |- context [negb ?b] => destruct b end; simpl; lia.
Qed.

(** X11.  The timeline's marked region stays inside the clip and is never
    inverted: started from a timeline with [1 <= duration] and
    [0 <= in_point <= out_point <= duration] (the freshly constructed
    widget is one), after every operation of every sequence of loads,
    position updates, in/out assignments and mouse drags the same holds
    again, whatever frame numbers are passed in. *)
Theorem timeline_region_stays_valid (ops : list Timeline.Op) (w : Timeline.t) :
  Timeline.region_ok w ->
  Forall Timeline.region_ok (Timeline.run ops w).
Proof.
  revert w. induction ops as [|op ops IH]; intros w R; simpl.
  - constructor.
  - pose proof (timeline_apply_region_ok op w R) as R'.
    constructor; [exact R' | apply IH; exact R'].
Qed.

Lemma timeline_region_stays_valid_witness :
  Timeline.region_ok Timeline.init /\
  Forall Timeline.region_ok
    (Timeline.run [Timeline.Loaded 40; Timeline.SetInOut 50 10;
                   Timeline.DragOut (-3); Timeline.Loaded 0;
                   Timeline.DragIn 7]
       Timeline.init).
Proof.
  assert (R : Timeline.region_ok Timeline.init).
  { unfold Timeline.region_ok; simpl; lia. }
  split; [exact R|].
  apply (timeline_region_stays_valid _ Timeline.init R).
Defined.

(** ** The list of recent files *)

Lemma list_contains_In x l :
  SettingsManager.list_contains x l = true <-> In x l.
Proof.
  unfold SettingsManager.list_contains. rewrite existsb_exists. split.
  - intros [y [I E]]. apply String.eqb_eq in E. subst y. exact I.
  - intros I. exists x. split; [exact I | apply String.eqb_refl].
Qed.

Lemma In_list_remove x y l :
  In y (SettingsManager.list_remove x l) -> In y l.
Proof.
  induction l as [|z l IH]; simpl; [auto|].
  destruct (String.eqb z x); simpl; intuition.
Qed.

Lemma In_list_remove_other x y l :
  In y l -> y <> x -> In y (SettingsManager.list_remove x l).
Proof.
  induction l as [|z l IH]; simpl; [auto|].
  intros [->|I] N.
  - destruct (String.eqb_spec y x); [contradiction | left; reflexivity].
  - destruct (String.eqb z x); [exact I | right; apply IH; assumption].
Qed.

Lemma NoDup_list_remove x l :
  NoDup l ->
  NoDup (SettingsManager.list_remove x l) /\
  ~ In x (SettingsManager.list_remove x l).
Proof.
  induction l as [|z l IH]; simpl; intros ND.
  - split; [constructor | intros []].
  - inversion ND as [|? ? NI ND']; subst.
    destruct (String.eqb_spec z x) as [->|Ne].
    + split; assumption.
    + destruct (IH ND') as [N' NI']. split.
      * constructor; [|exact N'].
        intros I; apply NI; eapply In_list_remove; exact I.
      * intros [E|I]; [contradiction | apply NI'; exact I].
Qed.

Lemma length_list_remove x l :
  In x l -> S (length (SettingsManager.list_remove x l)) = length l.
Proof.
  induction l as [|z l IH]; simpl; [intros []|].
  intros I. destruct (String.eqb_spec z x) as [->|Ne]; [reflexivity|].
  destruct I as [E|I]; [contradiction|].
  simpl. rewrite (IH I). reflexivity.
Qed.

Lemma In_firstn {A} n (x : A) l : In x (firstn n l) -> In x l.
Proof.
  intros I. rewrite <- (firstn_skipn n l). apply in_or_app; left; exact I.
Qed.

Lemma NoDup_firstn {A} n (l : list A) : NoDup l -> NoDup (firstn n l).
Proof.
  intros ND. rewrite <- (firstn_skipn n l) in ND.
  eapply NoDup_app_remove_r; exact ND.
Qed.

Lemma add_recent_file_step f st :
  1 <= SettingsManager.max_recent_files st ->
  NoDup (SettingsManager.recent_files st) ->
  SettingsManager.max_recent_files (SettingsManager.add_recent_file f st) =
    SettingsManager.max_recent_files st /\
  SettingsManager.tidy (SettingsManager.add_recent_file f st) /\
  (exists tl,
     SettingsManager.recent_files (SettingsManager.add_recent_file f st)
     = f :: tl) /\
  (forall g,
     In g (SettingsManager.recent_files (SettingsManager.add_recent_file f st)) ->
     g = f \/ In g (SettingsManager.recent_files st)).
Proof.
  intros M ND.
  unfold SettingsManager.tidy, SettingsManager.add_recent_file,
    SettingsManager.slice_to; simpl.
  set (old := SettingsManager.recent_files st) in *.
  set (r := if SettingsManager.list_contains f old
            then SettingsManager.list_remove f old else old).
  assert (Hr : NoDup r /\ ~ In f r /\ forall g, In g r -> In g old).
  { unfold r. destruct (SettingsManager.list_contains f old) eqn:C.
    - destruct (NoDup_list_remove f old ND) as [N NI].
      split; [exact N | split; [exact NI|]].
      intros g; apply In_list_remove.
    - split; [exact ND | split; [|auto]].
      intros I. apply list_contains_In in I. congruence. }
  destruct Hr as [Nr [NIr Sub]].
  destruct (Z.leb_spec 0 (SettingsManager.max_recent_files st)) as [_|Neg];
    [|lia].
  destruct (Z.to_nat (SettingsManager.max_recent_files st)) as [|m] eqn:Em;
    [lia|].
  simpl firstn.
  split; [reflexivity|]. split; [split|split].
  - constructor; [|apply NoDup_firstn; exact Nr].
    intros I; apply NIr; eapply In_firstn; exact I.
  - simpl length. pose proof (firstn_le_length m r). lia.
  - eexists; reflexivity.
  - intros g [E|I]; [left; auto|right].
    apply Sub; eapply In_firstn; exact I.
Qed.

(** X12.  The list of recent files stays free of duplicates and within
    its limit, newest first.  With a limit of at least 1, starting from a
    list without duplicates that respects the limit, after adding any
    sequence of files the list again has no duplicates and at most
    [max_recent_files] entries, every entry is a file just added or one
    that was listed before, and the file added last is at the head. *)
Theorem recent_files_stay_tidy :
  forall (files : list String.string) (st : SettingsManager.t),
    1 <= SettingsManager.max_recent_files st ->
    SettingsManager.tidy st ->
    SettingsManager.tidy (SettingsManager.add_all files st) /\
    SettingsManager.max_recent_files (SettingsManager.add_all files st) =
      SettingsManager.max_recent_files st /\
    (forall g,
       In g (SettingsManager.recent_files (SettingsManager.add_all files st)) ->
       In g files \/ In g (SettingsManager.recent_files st)) /\
    (forall earlier f,
       files = earlier ++ [f] ->
       exists tl,
         SettingsManager.recent_files (SettingsManager.add_all files st)
         = f :: tl).
Proof.
  intros files. induction files as [|f files IH] using rev_ind; intros st M T.
  - simpl. split; [exact T | split; [reflexivity | split]].
    + intros g I; right; exact I.
    + intros earlier f E. destruct earlier; discriminate.
  - destruct (IH st M T) as [T' [M' [Sub _]]].
    unfold SettingsManager.add_all in *. rewrite fold_left_app. simpl.
    set (st' := fold_left
                  (fun st0 file_path =>
                     SettingsManager.add_recent_file file_path st0) files st)
      in *.
    assert (M1 : 1 <= SettingsManager.max_recent_files st') by lia.
    destruct (add_recent_file_step f st' M1 (proj1 T'))
      as [Mx [Tx [Hd Subx]]].
    split; [exact Tx | split; [congruence | split]].
    + intros g I. destruct (Subx g I) as [->|I'].
      * left. apply in_or_app; right; left; reflexivity.
      * destruct (Sub g I') as [I2|I2]; [left|right; exact I2].
        apply in_or_app; left; exact I2.
    + intros earlier f' E. apply app_inj_tail in E. destruct E as [_ <-].
      exact Hd.
Qed.

Lemma recent_files_stay_tidy_witness :
  let st := SettingsManager.mk [] 2 in
  1 <= 2 /\
  SettingsManager.tidy
    (SettingsManager.add_all
       [Fixtures.clip_path; Fixtures.path_b; Fixtures.clip_path] st).
Proof.
  intros st.
  assert (M : 1 <= SettingsManager.max_recent_files st) by (simpl; lia).
  assert (T : SettingsManager.tidy st).
  { split; [constructor | simpl; lia]. }
  split; [exact M|].
  apply (recent_files_stay_tidy
           [Fixtures.clip_path; Fixtures.path_b; Fixtures.clip_path] st M T).
Defined.

(** X13.  Opening a file that is already listed moves it to the front and
    drops nothing: on a list without duplicates that respects its limit,
    [add_recent_file] of a listed file leaves the file at the head,
    followed by the other entries in their order, so every file listed
    before is still listed and the list is as long as it was. *)
Theorem reopened_file_moves_to_front :
  forall (f : String.string) (st : SettingsManager.t),
    SettingsManager.tidy st ->
    In f (SettingsManager.recent_files st) ->
    SettingsManager.recent_files (SettingsManager.add_recent_file f st) =
      f :: SettingsManager.list_remove f (SettingsManager.recent_files st) /\
    length (SettingsManager.recent_files (SettingsManager.add_recent_file f st))
      = length (SettingsManager.recent_files st) /\
    (forall g,
       In g (SettingsManager.recent_files st) ->
       In g (SettingsManager.recent_files (SettingsManager.add_recent_file f st))).
Proof.
  intros f st [ND L] I.
  pose proof (length_list_remove f _ I) as Len.
  assert (E : SettingsManager.recent_files (SettingsManager.add_recent_file f st)
              = f :: SettingsManager.list_remove f
                       (SettingsManager.recent_files st)).
  { unfold SettingsManager.add_recent_file, SettingsManager.slice_to; simpl.
    rewrite (proj2 (list_contains_In f _) I).
    destruct (Z.leb_spec 0 (SettingsManager.max_recent_files st)) as [_|Neg];
      [|lia].
    apply firstn_all2. simpl length. lia. }
  rewrite E. split; [reflexivity | split].
  - simpl length. exact Len.
  - intros g Ig. destruct (String.eqb_spec g f) as [->|Ne].
    + left; reflexivity.
    + right. apply In_list_remove_other; assumption.
Qed.

Lemma reopened_file_moves_to_front_witness :
  let st := SettingsManager.mk [Fixtures.clip_path; Fixtures.path_b] 2 in
  SettingsManager.recent_files (SettingsManager.add_recent_file Fixtures.path_b st)
    = [Fixtures.path_b; Fixtures.clip_path].
Proof.
  intros st.
  assert (T : SettingsManager.tidy st).
  { split; [|simpl; lia].
    repeat constructor; simpl; [intros [E|[]]; discriminate | intros []]. }
  assert (I : In Fixtures.path_b (SettingsManager.recent_files st))
    by (right; left; reflexivity).
  exact (proj1 (reopened_file_moves_to_front Fixtures.path_b st T I)).
Defined.

(** ** Export names *)

Lemma string_append_cancel_l (s a b : String.string) :
  String.append s a = String.append s b -> a = b.
Proof.
  induction s as [|c s IH]; simpl; intros E; [exact E|].
  injection E as E. apply IH; exact E.
Qed.

Lemma string_length_append (a b : String.string) :
  String.length (String.append a b) = (String.length a + String.length b)%nat.
Proof. induction a as [|c a IH]; simpl; [reflexivity | rewrite IH; reflexivity]. Qed.

Lemma string_append_cancel_r (a b e : String.string) :
  String.append a e = String.append b e -> a = b.
Proof.
  revert b. induction a as [|c a IH]; intros [|d b] E; simpl in E.
  - reflexivity.
  - apply (f_equal String.length) in E. simpl in E.
    rewrite string_length_append in E. lia.
  - apply (f_equal String.length) in E. simpl in E.
    rewrite string_length_append in E. lia.
  - injection E as -> E. f_equal. apply IH; exact E.
Qed.

Lemma str_inj (n m : nat) : VideoExporter.str n = VideoExporter.str m -> n = m.
Proof.
  unfold VideoExporter.str. intros E.
  apply DecimalNat.Unsigned.to_uint_inj.
  apply (f_equal DecimalString.NilEmpty.uint_of_string) in E.
  rewrite !DecimalString.NilEmpty.usu in E. congruence.
Qed.

(** Two counters give two names. *)
Lemma numbered_inj os file_path (n m : nat) :
  VideoExporter.numbered os file_path n = VideoExporter.numbered os file_path m ->
  n = m.
Proof.
  unfold VideoExporter.numbered.
  destruct (VideoExporter.splitext os file_path) as [base ext].
  intros E.
  apply string_append_cancel_l, string_append_cancel_l in E.
  apply string_append_cancel_r in E.
  apply str_inj; exact E.
Qed.

(** What the loop returns: the name under test when it is free, else the
    first free numbered name; [None] only when all the names it tried are
    taken. *)
Lemma unique_loop_spec os file_path :
  forall fuel counter u,
    match VideoExporter.unique_loop fuel os file_path counter u with
    | Some p =>
        VideoExporter.path_exists os p = false /\
        (p = u \/
         VideoExporter.path_exists os u = true /\
         exists j, (j < fuel)%nat /\
                   p = VideoExporter.numbered os file_path (counter + j) /\
                   forall i, (i < j)%nat ->
                     VideoExporter.path_exists os
                       (VideoExporter.numbered os file_path (counter + i))
                     = true)
    | None =>
        VideoExporter.path_exists os u = true /\
        forall i, (i < fuel)%nat ->
          VideoExporter.path_exists os
            (VideoExporter.numbered os file_path (counter + i)) = true
    end.
Proof.
  induction fuel as [|fuel IH]; intros counter u; simpl.
  - destruct (VideoExporter.path_exists os u) eqn:X.
    + split; [reflexivity | intros i Hi; lia].
    + split; [exact X | left; reflexivity].
  - destruct (VideoExporter.path_exists os u) eqn:X.
    + specialize (IH (S counter) (VideoExporter.numbered os file_path counter)).
      destruct (VideoExporter.unique_loop fuel os file_path (S counter)
                  (VideoExporter.numbered os file_path counter)) as [p|].
      * destruct IH as [Free [->|[Xc [j [Hj [-> Before]]]]]].
        -- split; [exact Free|]. right. split; [reflexivity|].
           exists 0%nat. split; [lia|]. rewrite Nat.add_0_r.
           split; [reflexivity | intros i Hi; lia].
        -- split; [exact Free|]. right. split; [reflexivity|].
           exists (S j). split; [lia|].
           replace (counter + S j)%nat with (S counter + j)%nat by lia.
           split; [reflexivity|].
           intros [|i] Hi.
           ++ rewrite Nat.add_0_r; exact Xc.
           ++ replace (counter + S i)%nat with (S counter + i)%nat by lia.
              apply Before; lia.
      * destruct IH as [Xc All]. split; [reflexivity|].
        intros [|i] Hi.
        -- rewrite Nat.add_0_r; exact Xc.
        -- replace (counter + S i)%nat with (S counter + i)%nat by lia.
           apply All; lia.
    + split; [exact X | left; reflexivity].
Qed.

Lemma NoDup_map_inj {A B} (f : A -> B) (l : list A) :
  (forall x y, f x = f y -> x = y) -> NoDup l -> NoDup (map f l).
Proof.
  intros Inj ND. induction ND as [|x l NI ND IH]; simpl; constructor; [|exact IH].
  intros I. apply in_map_iff in I. destruct I as [y [E Iy]].
  apply Inj in E. subst y. contradiction.
Qed.

(** X14.  [get_unique_filename] finds a free name.  When only finitely
    many paths exist (all of them among [existing]), the loop ends within
    [length existing + 1] rounds, and the name returned does not exist; it
    is [file_path] itself when that is free, and otherwise the numbered
    name [base_n.ext] with the least [n >= 1] that is free. *)
Theorem get_unique_filename_is_free :
  forall (os : VideoExporter.Os) (file_path : String.string)
         (existing : list String.string) (fuel : nat),
    (forall p, VideoExporter.path_exists os p = true -> In p existing) ->
    (length existing < fuel)%nat ->
    exists p,
      VideoExporter.get_unique_filename fuel os file_path = Some p /\
      VideoExporter.path_exists os p = false /\
      (VideoExporter.path_exists os file_path = false -> p = file_path) /\
      (VideoExporter.path_exists os file_path = true ->
       exists n, (1 <= n)%nat /\
                 p = VideoExporter.numbered os file_path n /\
                 forall i, (1 <= i < n)%nat ->
                   VideoExporter.path_exists os
                     (VideoExporter.numbered os file_path i) = true).
Proof.
  intros os file_path existing fuel Fin Fuel.
  unfold VideoExporter.get_unique_filename.
  pose proof (unique_loop_spec os file_path fuel 1%nat file_path) as Spec.
  destruct (VideoExporter.unique_loop fuel os file_path 1 file_path) as [p|].
  - destruct Spec as [Free Which]. exists p.
    split; [reflexivity | split; [exact Free | split]].
    + intros X. destruct Which as [->|[X' _]]; [reflexivity | congruence].
    + intros X. destruct Which as [->|[_ [j [Hj [-> Before]]]]]; [congruence|].
      exists (1 + j)%nat. split; [lia | split; [reflexivity|]].
      intros i Hi. replace i with (1 + (i - 1))%nat by lia.
      apply Before; lia.
  - exfalso. destruct Spec as [_ All].
    set (names := map (fun i => VideoExporter.numbered os file_path (1 + i))
                      (seq 0 fuel)).
    assert (ND : NoDup names).
    { apply NoDup_map_inj; [|apply seq_NoDup].
      intros x y E. apply numbered_inj in E. lia. }
    assert (Inc : incl names existing).
    { intros q Iq. apply in_map_iff in Iq. destruct Iq as [i [<- Ii]].
      apply in_seq in Ii. apply Fin, All. lia. }
    pose proof (NoDup_incl_length ND Inc) as Len.
    unfold names in Len. rewrite length_map, length_seq in Len. lia.
Qed.

Lemma get_unique_filename_is_free_witness :
  exists p,
    VideoExporter.get_unique_filename 3 VideoExporter.two_taken
      VideoExporter.out_path = Some p /\
    VideoExporter.path_exists VideoExporter.two_taken p = false /\
    p = VideoExporter.numbered VideoExporter.two_taken VideoExporter.out_path 2.
Proof.
  destruct (get_unique_filename_is_free VideoExporter.two_taken
              VideoExporter.out_path
              [VideoExporter.out_path;
               VideoExporter.numbered VideoExporter.two_taken
                 VideoExporter.out_path 1]
              3) as [p [E [F [_ N]]]].
  - intros q X. simpl in X. apply orb_true_iff in X.
    destruct X as [X|X]; apply String.eqb_eq in X; subst q;
      [left | right; left]; reflexivity.
  - simpl; lia.
  - exists p. split; [exact E | split; [exact F|]].
    vm_compute in E. injection E as <-. reflexivity.
Defined.
